(** * Flumotion manager: the component dependency graph

    A shallow embedding of [flumotion/manager/depgraph.py] (class
    [DepGraph]) and proofs about its operations.

    [DepGraph] keeps a [dag.DAG] of vertices [(object, type)] and a Python
    dict [_state] from vertices to booleans.  The module
    [flumotion.common.dag] is used by [depgraph.py] but is not part of the
    sources at hand; its operations are modelled from the specification
    (section 4.1) in [Module DAG] below.

    Python exceptions leave every mutation made before the [raise] in
    place, so an operation here returns its outcome together with the
    state it leaves behind. *)

From Stdlib Require Import Ascii.
From stdpp Require Import base decidable countable relations list strings gmap.

Set Default Proof Using "Type".
#[global] Set Warnings "-clear-no-such-hyp".

(** ** Data *)

(** [(WORKER, JOB, COMPONENTSETUP, CLOCKMASTER, COMPONENTSTART) = range(0,5)] *)
Inductive kind := WORKER | JOB | COMPONENTSETUP | CLOCKMASTER | COMPONENTSTART.

(** [types = range(0, 5)] *)
Definition types : list kind :=
  [WORKER; JOB; COMPONENTSETUP; CLOCKMASTER; COMPONENTSTART].

(** The value of a component's [config['source']]: "sometimes this gives us
    one string, and sometimes a list". *)
Inductive source_value :=
  | SourceStr (s : string)
  | SourceList (l : list string).

(** A component state object, as far as [DepGraph] reads it through
    [component.get(...)].  [comp_id] stands for the identity of the Python
    object; [config_source] is [None] when [config] has no key ['source']. *)
Record component := Component {
  comp_id : nat;
  name : string;
  parent : string;
  workerRequested : option string;
  config_source : option source_value
}.

(** The first member of a vertex: a worker name ([str]) or a component. *)
Inductive object :=
  | Worker (w : string)
  | Comp (c : component).

Definition vertex : Type := object * kind.
Definition edge : Type := vertex * vertex.

#[global] Instance kind_eq_dec : EqDecision kind.
Proof. solve_decision. Defined.
#[global] Instance source_value_eq_dec : EqDecision source_value.
Proof. solve_decision. Defined.
#[global] Instance component_eq_dec : EqDecision component.
Proof. solve_decision. Defined.
#[global] Instance object_eq_dec : EqDecision object.
Proof. solve_decision. Defined.

Definition kind_to_nat (k : kind) : nat :=
  match k with
  | WORKER => 0 | JOB => 1 | COMPONENTSETUP => 2
  | CLOCKMASTER => 3 | COMPONENTSTART => 4
  end.

Definition kind_of_nat (n : nat) : kind :=
  match n with
  | 0 => WORKER | 1 => JOB | 2 => COMPONENTSETUP
  | 3 => CLOCKMASTER | _ => COMPONENTSTART
  end.

#[global] Instance kind_countable : Countable kind.
Proof. apply (inj_countable' kind_to_nat kind_of_nat). by intros []. Defined.

#[global] Instance source_value_countable : Countable source_value.
Proof.
  apply (inj_countable'
    (λ s, match s with SourceStr s => inl s | SourceList l => inr l end)
    (λ s, match s with inl s => SourceStr s | inr l => SourceList l end)).
  by intros [].
Defined.

#[global] Instance component_countable : Countable component.
Proof.
  apply (inj_countable'
    (λ c, (comp_id c, name c, parent c, workerRequested c, config_source c))
    (λ t, match t with (i, n, p, w, s) => Component i n p w s end)).
  by intros [].
Defined.

#[global] Instance object_countable : Countable object.
Proof.
  apply (inj_countable'
    (λ o, match o with Worker w => inl w | Comp c => inr c end)
    (λ s, match s with inl w => Worker w | inr c => Comp c end)).
  by intros [].
Defined.

(** ** Exceptions *)

(** What a [KeyError] is raised for.  [depgraph.py] raises [KeyError] for a
    component that "has not been added", for a worker or component "not in
    dependency graph" and for an eater that "has no mapped feeder"; a dict
    lookup or [del] on a missing key raises it too. *)
Inductive key_error :=
  | AlreadyExists
  | NotFound
  | PreconditionFailed
  | Unresolved (eater : string).

Inductive exn :=
  | KeyError (why : key_error)
  | CycleError
  | AttributeError
  | ValueError.

Inductive outcome (A : Type) :=
  | Ok (a : A)
  | Raise (e : exn).
Arguments Ok {A} a.
Arguments Raise {A} e.

#[global] Instance key_error_eq_dec : EqDecision key_error.
Proof. solve_decision. Defined.
#[global] Instance exn_eq_dec : EqDecision exn.
Proof. solve_decision. Defined.

Definition obind {A B} (x : outcome A) (f : A → outcome B) : outcome B :=
  match x with
  | Ok a => f a
  | Raise e => Raise e
  end.

Definition is_ok {A} (x : outcome A) : bool :=
  match x with Ok _ => true | Raise _ => false end.

(** [obj.get('parent')], [obj.get('name')], [obj.get('config')]: a worker
    name is a [str] and has no [get]. *)
Definition get_parent (o : object) : outcome string :=
  match o with Comp c => Ok (parent c) | Worker _ => Raise AttributeError end.

Definition get_name (o : object) : outcome string :=
  match o with Comp c => Ok (name c) | Worker _ => Raise AttributeError end.

Definition get_config_source (o : object) : outcome (option source_value) :=
  match o with
  | Comp c => Ok (config_source c)
  | Worker _ => Raise AttributeError
  end.

(** [string.split(eater, ':')[0]]: the text before the first colon. *)
Fixpoint split_head (s : string) : string :=
  match s with
  | EmptyString => EmptyString
  | String a rest =>
      if Ascii.eqb a ":"%char then EmptyString else String a (split_head rest)
  end.

(** ** The typed DAG *)

Module DAG.

(** Modelled from the spec: the class [flumotion.common.dag.DAG] is
    missing from the sources.  Vertices are kept in insertion order (the
    tie-break of [sort]); an edge is the labelled pair of its end points. *)
Record t := Make {
  nodes : list vertex;
  edges : list edge
}.

Definition empty : t := Make [] [].

(** Modelled from the spec: [HasNode(obj, kind) → bool]. *)
Definition hasNode (d : t) (v : vertex) : bool := bool_decide (v ∈ nodes d).

(** Modelled from the spec: [AddNode(obj, kind)] fails with
    [AlreadyExists] if the vertex is present. *)
Definition addNode (d : t) (v : vertex) : outcome t :=
  if hasNode d v then Raise (KeyError AlreadyExists)
  else Ok (Make (nodes d ++ [v]) (edges d)).

(** Modelled from the spec: [RemoveNode(obj, kind)] fails with [NotFound]
    when the vertex is absent; removes all incident edges. *)
Definition removeNode (d : t) (v : vertex) : outcome t :=
  if hasNode d v then
    Ok (Make (filter (λ u, u ≠ v) (nodes d))
             (filter (λ e : edge, e.1 ≠ v ∧ e.2 ≠ v) (edges d)))
  else Raise (KeyError NotFound).

(** The direct successors of a vertex, in edge insertion order. *)
Definition children (es : list edge) (v : vertex) : list vertex :=
  (filter (λ e : edge, e.1 = v) es).*2.

(** Forward depth-first traversal: [todo] is the stack, [seen] the
    vertices visited so far, in visiting order. *)
Fixpoint walk (fuel : nat) (es : list edge) (todo seen : list vertex)
  : list vertex :=
  match fuel with
  | 0 => seen
  | S fuel' =>
      match todo with
      | [] => seen
      | v :: rest =>
          if decide (v ∈ seen) then walk fuel' es rest seen
          else walk fuel' es (children es v ++ rest) (seen ++ [v])
      end
  end.

(** Every step either pops a visited vertex or visits a new one and
    pushes its out-edges, so twice the number of edges bounds the steps. *)
Definition walk_fuel (es : list edge) : nat := 2 * length es.

(** [(p, c)] is an edge: [c] requires [p]. *)
Definition edge_rel (es : list edge) : relation vertex :=
  λ p c, (p, c) ∈ es.

(** [c] is reachable from [p] along one edge or more. *)
Definition descendant (d : t) : relation vertex := tc (edge_rel (edges d)).

Definition acyclic (d : t) : Prop := ∀ v, ¬ descendant d v v.

(** Modelled from the spec: [GetOffspringTyped(obj, kind)], "the
    transitive descendants reachable by forward traversal from
    (obj, kind), excluding the start vertex itself". *)
Definition getOffspringTyped (d : t) (v : vertex) : list vertex :=
  filter (λ u, u ≠ v) (walk (walk_fuel (edges d)) (edges d)
                            (children (edges d) v) []).

(** Modelled from the spec: cycle detection, "depth-first from the
    proposed child through existing descendants; if the proposed parent
    is reached, reject". *)
Definition wouldCycle (d : t) (p c : vertex) : bool :=
  bool_decide (p = c) || bool_decide (p ∈ getOffspringTyped d c).

(** Modelled from the spec: [AddEdge] "fails with NotFound if either
    endpoint is absent; fails with AlreadyExists if that exact labeled
    edge already exists; fails with WouldCycle if the edge would close a
    cycle.  Never partially modifies." *)
Definition addEdge (d : t) (p c : vertex) : outcome t :=
  if negb (hasNode d p && hasNode d c) then Raise (KeyError NotFound)
  else if bool_decide ((p, c) ∈ edges d) then Raise (KeyError AlreadyExists)
  else if wouldCycle d p c then Raise CycleError
  else Ok (Make (nodes d) (edges d ++ [(p, c)])).

(** Modelled from the spec: [RemoveEdge] fails with [NotFound] if the
    exact edge is absent. *)
Definition removeEdge (d : t) (p c : vertex) : outcome t :=
  if bool_decide ((p, c) ∈ edges d)
  then Ok (Make (nodes d) (filter (λ e, e ≠ (p, c)) (edges d)))
  else Raise (KeyError NotFound).

(** Modelled from the spec: [GetAllNodesByKind(kind) → sequence of obj]. *)
Definition getAllNodesByType (d : t) (k : kind) : list object :=
  (filter (λ v : vertex, v.2 = k) (nodes d)).*1.

(** The vertices of [rem] none of whose parents is still in [rem]. *)
Definition has_parent_in (es : list edge) (rem : list vertex) (v : vertex)
  : Prop := Exists (λ e : edge, e.2 = v ∧ e.1 ∈ rem) es.

#[global] Instance has_parent_in_dec es rem v :
  Decision (has_parent_in es rem v).
Proof. unfold has_parent_in. apply _. Defined.

(** Kahn's algorithm, one depth at a time: emit the vertices whose
    in-degree among the remaining ones is zero, in insertion order, and
    go on with the rest. *)
Fixpoint kahn (fuel : nat) (es : list edge) (rem : list vertex)
  : list vertex :=
  match fuel with
  | 0 => []
  | S fuel' =>
      match filter (λ v, ¬ has_parent_in es rem v) rem with
      | [] => []
      | ready =>
          ready ++ kahn fuel' es (filter (λ v, has_parent_in es rem v) rem)
      end
  end.

(** Modelled from the spec: [Sort()], "a deterministic topological
    order: every prerequisite precedes every dependent.  Among vertices
    with equal depth, insertion order is the tiebreak"; "Kahn's algorithm
    over a copy of the in-degree map". *)
Definition sort (d : t) : list vertex :=
  kahn (length (nodes d)) (edges d) (nodes d).

(** [p] comes before [v] in the sequence [l]. *)
Definition earlier (l : list vertex) (p v : vertex) : Prop :=
  ∃ i j, i < j ∧ l !! i = Some p ∧ l !! j = Some v.

End DAG.

#[global] Instance outcome_ret : MRet outcome := @Ok.
#[global] Instance outcome_bind : MBind outcome := λ A B f x, obind x f.

(** [for x in l: acc = body(acc, x)] where the body may raise. *)
Fixpoint ofold {A S} (body : S → A → outcome S) (s : S) (l : list A)
  : outcome S :=
  match l with
  | [] => Ok s
  | x :: l' => s' ← body s x; ofold body s' l'
  end.

(** ** The dependency graph *)

Module DepGraph.

(** [self._dag = dag.DAG()] and [self._state = {}] *)
Record t := Make {
  _dag : DAG.t;
  _state : gmap vertex bool
}.

Definition empty : t := Make DAG.empty ∅.

(** A method body: it runs on [self] and leaves [self] as it is at the
    point of return or of the [raise]. *)
Definition M (A : Type) : Type := t → outcome A * t.

Definition ret {A} (a : A) : M A := λ self, (Ok a, self).
Definition raise {A} (e : exn) : M A := λ self, (Raise e, self).
Definition bind {A B} (m : M A) (f : A → M B) : M B :=
  λ self,
    match m self with
    | (Ok a, self') => f a self'
    | (Raise e, self') => (Raise e, self')
    end.

#[global] Instance M_ret : MRet M := @ret.
#[global] Instance M_bind : MBind M := λ A B f m, bind m f.

(** Evaluation of an expression that reads nothing of [self]. *)
Definition lift {A} (x : outcome A) : M A := λ self, (x, self).

(** A call [self._dag.f(...)] that mutates the DAG. *)
Definition dag_call (f : DAG.t → outcome DAG.t) : M unit :=
  λ self,
    match f (_dag self) with
    | Ok d => (Ok tt, Make d (_state self))
    | Raise e => (Raise e, self)
    end.

(** A call [self._dag.f(...)] that only reads the DAG. *)
Definition dag_read {A} (f : DAG.t → A) : M A :=
  λ self, (Ok (f (_dag self)), self).

(** [self._state[v] = b] *)
Definition state_set (v : vertex) (b : bool) : M unit :=
  λ self, (Ok tt, Make (_dag self) (<[v := b]> (_state self))).

(** [del self._state[v]] *)
Definition state_del (v : vertex) : M unit :=
  λ self,
    match _state self !! v with
    | Some _ => (Ok tt, Make (_dag self) (delete v (_state self)))
    | None => (Raise (KeyError NotFound), self)
    end.

(** [try: m  except KeyError: pass] *)
Definition except_KeyError (m : M unit) : M unit :=
  λ self,
    match m self with
    | (Raise (KeyError _), self') => (Ok tt, self')
    | r => r
    end.

(** [for x in l: body(x)] *)
Fixpoint for_ {A} (l : list A) (body : A → M unit) : M unit :=
  match l with
  | [] => ret tt
  | x :: l' => body x;; for_ l' body
  end.

(** A loop that carries a local variable. *)
Fixpoint foldM {A S} (body : S → A → M S) (s : S) (l : list A) : M S :=
  match l with
  | [] => ret s
  | x :: l' => s' ← body s x; foldM body s' l'
  end.

Definition _addNode (component : object) (type : kind) : M unit :=
  dag_call (λ d, DAG.addNode d (component, type));;
  state_set (component, type) false.

Definition _removeNode (component : object) (type : kind) : M unit :=
  dag_call (λ d, DAG.removeNode d (component, type)).

Definition _addEdge (parent child : object) (parentType childType : kind)
  : M unit :=
  dag_call (λ d, DAG.addEdge d (parent, parentType) (child, childType)).

Definition _removeEdge (parent child : object) (parentType childType : kind)
  : M unit :=
  dag_call (λ d, DAG.removeEdge d (parent, parentType) (child, childType)).

Definition addClockMaster (component : component) : M unit :=
  has ← dag_read (λ d, DAG.hasNode d (Comp component, JOB));
  if has : bool then
    _addNode (Comp component) CLOCKMASTER;;
    _addEdge (Comp component) (Comp component) COMPONENTSETUP CLOCKMASTER;;
    startnodes ← dag_read (λ d, DAG.getAllNodesByType d COMPONENTSTART);
    for_ startnodes (λ start,
      p ← lift (get_parent start);
      if decide (p = parent component)
      then _addEdge (Comp component) start CLOCKMASTER COMPONENTSTART
      else ret tt)
  else raise (KeyError PreconditionFailed).

Definition addWorker (worker : string) : M unit :=
  has ← dag_read (λ d, DAG.hasNode d (Worker worker, WORKER));
  if has : bool then ret tt else _addNode (Worker worker) WORKER.

Definition setComponentWorker (component : component) (worker : string)
  : M unit :=
  hasw ← dag_read (λ d, DAG.hasNode d (Worker worker, WORKER));
  hasj ← dag_read (λ d, DAG.hasNode d (Comp component, JOB));
  if hasw && hasj
  then _addEdge (Worker worker) (Comp component) WORKER JOB
  else raise (KeyError NotFound).

(** [if workername:] holds for a non-empty string. *)
Definition truthy (workername : option string) : option string :=
  match workername with
  | Some EmptyString => None
  | w => w
  end.

Definition addComponent (component : component) : M unit :=
  _addNode (Comp component) JOB;;
  _addNode (Comp component) COMPONENTSTART;;
  _addNode (Comp component) COMPONENTSETUP;;
  _addEdge (Comp component) (Comp component) JOB COMPONENTSETUP;;
  match truthy (workerRequested component) with
  | Some workername =>
      addWorker workername;; setComponentWorker component workername
  | None => ret tt
  end;;
  _addEdge (Comp component) (Comp component) COMPONENTSETUP COMPONENTSTART.

Definition removeComponent (component : component) : M unit :=
  for_ types (λ type,
    has ← dag_read (λ d, DAG.hasNode d (Comp component, type));
    if has : bool then
      _removeNode (Comp component) type;;
      state_del (Comp component, type)
    else ret tt).

Definition removeWorker (worker : string) : M unit :=
  has ← dag_read (λ d, DAG.hasNode d (Worker worker, WORKER));
  if has : bool then
    dag_call (λ d, DAG.removeNode d (Worker worker, WORKER));;
    state_del (Worker worker, WORKER)
  else ret tt.

(** [if isinstance(list, str): list = [list, ]] *)
Definition source_list (src : source_value) : list string :=
  match src with
  | SourceStr s => [s]
  | SourceList l => l
  end.

(** The body of [for feedercomp in compsetups:]; it carries
    [feederfound]. *)
Definition match_feeder (eatercomp : object) (name0 : string)
    (feederfound : bool) (feedercomp : object) : M bool :=
  n ← lift (get_name feedercomp);
  if decide (n = name0) then
    except_KeyError
      (_addEdge feedercomp eatercomp COMPONENTSETUP COMPONENTSETUP);;
    except_KeyError
      (_addEdge feedercomp eatercomp COMPONENTSTART COMPONENTSTART);;
    mret true
  else mret feederfound.

(** The body of [for eater in list:]. *)
Definition map_eater (compsetups : list object) (eatercomp : object)
    (eater : string) : M unit :=
  feederfound ← foldM (match_feeder eatercomp (split_head eater))
                      false compsetups;
  if feederfound : bool then ret tt
  else raise (KeyError (Unresolved eater)).

Definition mapEatersToFeeders : M unit :=
  compsetups ← dag_read (λ d, DAG.getAllNodesByType d COMPONENTSETUP);
  for_ compsetups (λ eatercomp,
    dict ← lift (get_config_source eatercomp);
    match dict with
    | None => ret tt
    | Some src => for_ (source_list src) (map_eater compsetups eatercomp)
    end).

(** [list.remove(x)]: drops the first occurrence, [ValueError] if there
    is none. *)
Fixpoint list_remove (x : vertex) (l : list vertex) : outcome (list vertex) :=
  match l with
  | [] => Raise ValueError
  | y :: l' =>
      if decide (x = y) then Ok l'
      else l'' ← list_remove x l'; Ok (y :: l'')
  end.

(** [for offspring in ..._offspring: if offspring in toBeStarted:
    toBeStarted.remove(offspring)] *)
Definition remove_offspring (offspring toBeStarted : list vertex)
  : outcome (list vertex) :=
  ofold (λ tbs o, if decide (o ∈ tbs) then list_remove o tbs else Ok tbs)
        toBeStarted offspring.

(** [self._state[obj]] *)
Definition state_get (self : t) (v : vertex) : outcome bool :=
  match _state self !! v with
  | Some b => Ok b
  | None => Raise (KeyError NotFound)
  end.

(** The body of [for obj in toBeStarted[:]:]. *)
Definition test_obj (self : t) (toBeStarted : list vertex) (obj : vertex)
  : outcome (list vertex) :=
  if decide (obj ∈ toBeStarted) then
    live ← state_get self obj;
    if live : bool then list_remove obj toBeStarted
    else if decide (obj.2 = WORKER) then
      tbs ← remove_offspring (DAG.getOffspringTyped (_dag self) obj)
                             toBeStarted;
      list_remove obj tbs
    else if decide (obj.2 = JOB) then
      tbs ← remove_offspring (DAG.getOffspringTyped (_dag self) obj)
                             toBeStarted;
      list_remove obj tbs
    else Ok toBeStarted
  else Ok toBeStarted.

Definition whatShouldBeStarted (self : t) : outcome (list vertex) :=
  let toBeStarted := DAG.sort (_dag self) in
  ofold (test_obj self) toBeStarted toBeStarted.

Definition _setState (object : object) (type : kind) (value : bool)
  : M unit :=
  state_set (object, type) value;;
  if negb value then
    offspring ← dag_read (λ d, DAG.getOffspringTyped d (object, type));
    for_ offspring (λ kid : vertex,
      if decide (kid.1 = object) then state_set kid false else ret tt)
  else ret tt.

Definition setComponentStarted (component : component) : M unit :=
  _setState (Comp component) COMPONENTSTART true.
Definition setComponentNotStarted (component : component) : M unit :=
  _setState (Comp component) COMPONENTSTART false.
Definition setComponentSetup (component : component) : M unit :=
  _setState (Comp component) COMPONENTSETUP true.
Definition setComponentNotSetup (component : component) : M unit :=
  _setState (Comp component) COMPONENTSETUP false.
Definition setJobStarted (component : component) : M unit :=
  _setState (Comp component) JOB true.
Definition setJobStopped (component : component) : M unit :=
  _setState (Comp component) JOB false.
Definition setWorkerStarted (worker : string) : M unit :=
  _setState (Worker worker) WORKER true.
Definition setWorkerStopped (worker : string) : M unit :=
  _setState (Worker worker) WORKER false.
Definition setClockMasterStarted (component : component) : M unit :=
  _setState (Comp component) CLOCKMASTER true.
Definition setClockMasterStopped (component : component) : M unit :=
  _setState (Comp component) CLOCKMASTER false.

(** *** Calls from outside *)

(** A liveness setter: the vertex it names and the value it stores. *)
Inductive setter :=
  | SetComponentStarted (c : component)
  | SetComponentNotStarted (c : component)
  | SetComponentSetup (c : component)
  | SetComponentNotSetup (c : component)
  | SetJobStarted (c : component)
  | SetJobStopped (c : component)
  | SetWorkerStarted (w : string)
  | SetWorkerStopped (w : string)
  | SetClockMasterStarted (c : component)
  | SetClockMasterStopped (c : component).

Definition setter_vertex (s : setter) : vertex :=
  match s with
  | SetComponentStarted c | SetComponentNotStarted c =>
      (Comp c, COMPONENTSTART)
  | SetComponentSetup c | SetComponentNotSetup c => (Comp c, COMPONENTSETUP)
  | SetJobStarted c | SetJobStopped c => (Comp c, JOB)
  | SetWorkerStarted w | SetWorkerStopped w => (Worker w, WORKER)
  | SetClockMasterStarted c | SetClockMasterStopped c => (Comp c, CLOCKMASTER)
  end.

Definition setter_value (s : setter) : bool :=
  match s with
  | SetComponentStarted _ | SetComponentSetup _ | SetJobStarted _
  | SetWorkerStarted _ | SetClockMasterStarted _ => true
  | _ => false
  end.

Definition call_setter (s : setter) : M unit :=
  match s with
  | SetComponentStarted c => setComponentStarted c
  | SetComponentNotStarted c => setComponentNotStarted c
  | SetComponentSetup c => setComponentSetup c
  | SetComponentNotSetup c => setComponentNotSetup c
  | SetJobStarted c => setJobStarted c
  | SetJobStopped c => setJobStopped c
  | SetWorkerStarted w => setWorkerStarted w
  | SetWorkerStopped w => setWorkerStopped w
  | SetClockMasterStarted c => setClockMasterStarted c
  | SetClockMasterStopped c => setClockMasterStopped c
  end.

(** A call of a public method of [DepGraph]. *)
Inductive op :=
  | AddClockMaster (c : component)
  | AddComponent (c : component)
  | AddWorker (w : string)
  | RemoveComponent (c : component)
  | RemoveWorker (w : string)
  | SetComponentWorker (c : component) (w : string)
  | MapEatersToFeeders
  | WhatShouldBeStarted
  | Set_ (s : setter).

Definition call (o : op) : M unit :=
  match o with
  | AddClockMaster c => addClockMaster c
  | AddComponent c => addComponent c
  | AddWorker w => addWorker w
  | RemoveComponent c => removeComponent c
  | RemoveWorker w => removeWorker w
  | SetComponentWorker c w => setComponentWorker c w
  | MapEatersToFeeders => mapEatersToFeeders
  | WhatShouldBeStarted =>
      λ self, (whatShouldBeStarted self ≫= λ _, Ok tt, self)
  | Set_ s => call_setter s
  end.

(** The state a sequence of calls leaves, whether or not some of them
    raised. *)
Definition run (ops : list op) (self : t) : t :=
  foldl (λ s o, (call o s).2) self ops.

(** The states the public methods can produce from a fresh [DepGraph()]. *)
Inductive reachable : t → Prop :=
  | reachable_init : reachable empty
  | reachable_call o self : reachable self → reachable (call o self).2.

(** *** Well-formed states *)

(** A worker name goes with [WORKER], a component with the other kinds. *)
Definition well_typed (v : vertex) : Prop :=
  match v.1 with
  | Worker _ => v.2 = WORKER
  | Comp _ => v.2 ≠ WORKER
  end.

(** What every step of every method keeps: the vertices are distinct,
    the edges join vertices of the graph and close no cycle, every
    vertex has a liveness entry, the objects fit the kinds, and no edge
    goes from a later kind to an earlier one. *)
Record base (self : t) : Prop := {
  base_nodup : NoDup (DAG.nodes (_dag self));
  base_edges : ∀ p c, (p, c) ∈ DAG.edges (_dag self) →
                      p ∈ DAG.nodes (_dag self) ∧ c ∈ DAG.nodes (_dag self);
  base_acyclic : DAG.acyclic (_dag self);
  base_live : ∀ v, v ∈ DAG.nodes (_dag self) → is_Some (_state self !! v);
  base_typed : ∀ v, v ∈ DAG.nodes (_dag self) → well_typed v;
  base_ranked : ∀ p c, (p, c) ∈ DAG.edges (_dag self) →
                       kind_to_nat p.2 ≤ kind_to_nat c.2
}.

(** The [JOB], [COMPONENTSETUP] and [COMPONENTSTART] vertices of a
    component come and go together. *)
Definition triple (ns : list vertex) : Prop :=
  ∀ c, ((Comp c, JOB) ∈ ns ↔ (Comp c, COMPONENTSETUP) ∈ ns) ∧
       ((Comp c, JOB) ∈ ns ↔ (Comp c, COMPONENTSTART) ∈ ns).

Definition inv (self : t) : Prop :=
  base self ∧ triple (DAG.nodes (_dag self)).

(** [m] keeps [I], whether it returns or raises. *)
Definition preserves {A} (I : t → Prop) (m : M A) : Prop :=
  ∀ self, I self → I (m self).2.

(** Every liveness entry belongs to a vertex of the graph. *)
Definition keyed (self : t) : Prop :=
  ∀ v, is_Some (_state self !! v) → v ∈ DAG.nodes (_dag self).

(** Every liveness setter among [ops] is called for a vertex that is in
    the graph when it is called. *)
Fixpoint setters_on_vertices (ops : list op) (self : t) : Prop :=
  match ops with
  | [] => True
  | o :: ops' =>
      match o with
      | Set_ s => setter_vertex s ∈ DAG.nodes (_dag self)
      | _ => True
      end ∧ setters_on_vertices ops' (call o self).2
  end.

(** [self'] has the vertices and the liveness map of [self] and its
    edges, followed by further ones. *)
Definition extends (self self' : t) : Prop :=
  DAG.nodes (_dag self') = DAG.nodes (_dag self) ∧
  _state self' = _state self ∧
  ∃ more, DAG.edges (_dag self') = DAG.edges (_dag self) ++ more.

(** Whenever [m] returns, it has only added edges, and run again in any
    later state with further edges it returns the same and changes
    nothing. *)
Definition replayable {A} (m : M A) : Prop :=
  ∀ self a self', m self = (Ok a, self') →
    extends self self' ∧
    ∀ later, extends self' later → m later = (Ok a, later).

End DepGraph.

(** ** Sample flows *)

Module Examples.
Import DepGraph.

Definition src : component :=
  Component 1 "src" "flow1" (Some "w1") None.

Definition snk : component :=
  Component 2 "snk" "flow1" (Some "w1") (Some (SourceList ["src:default"])).

(** An eater whose second source names no component. *)
Definition snk_ghost : component :=
  Component 3 "snk" "flow1" (Some "w1")
            (Some (SourceList ["src"; "ghost"])).

(** A component that lists itself as its source. *)
Definition selfeater : component :=
  Component 4 "echo" "flow1" None (Some (SourceStr "echo")).

Definition flow : t := run [AddComponent src; AddComponent snk] empty.

Definition flow_ghost : t :=
  run [AddComponent src; AddComponent snk_ghost] empty.

Definition flow_echo : t := run [AddComponent selfeater] empty.





(** [src] is the clock master and its clock is running. *)
Definition flow_clocked : t :=
  run [AddClockMaster src; Set_ (SetClockMasterStarted src)] flow.

(** The whole of [flow] is up. *)
Definition flow_up : t :=
  run [Set_ (SetWorkerStarted "w1");
       Set_ (SetJobStarted src); Set_ (SetJobStarted snk);
       Set_ (SetComponentSetup src); Set_ (SetComponentSetup snk);
       Set_ (SetComponentStarted src); Set_ (SetComponentStarted snk)]
      (run [MapEatersToFeeders] flow).

(** [flow] is mapped, its worker and its two jobs are up: the setups and
    the starts are still to come. *)
Definition flow_jobs_up : t :=
  run [Set_ (SetWorkerStarted "w1");
       Set_ (SetJobStarted src); Set_ (SetJobStarted snk)]
      (run [MapEatersToFeeders] flow).

(** As before, and the feeder [src] is set up and started. *)
Definition flow_src_up : t :=
  run [Set_ (SetComponentSetup src); Set_ (SetComponentStarted src)]
      flow_jobs_up.

End Examples.

(** * Properties *)

(** ** The traversal computes the descendants *)

Section walk.
Context (es : list edge).
Implicit Types (v u : vertex) (todo seen : list vertex).

(** The edges whose source has not been visited: what is left to push. *)
Local Abbreviation pending seen :=
  (length (filter (λ e : edge, e.1 ∉ seen) es)).

Lemma elem_of_children v c : c ∈ DAG.children es v ↔ DAG.edge_rel es v c.
Proof.
  unfold DAG.children, DAG.edge_rel. rewrite list_elem_of_fmap. split.
  - intros [[p c'] [-> [Hp ?]%list_elem_of_filter]]. simpl in *. by subst.
  - intros He. exists (v, c). split; [done|].
    by apply list_elem_of_filter.
Qed.

Lemma pending_visit seen v :
  v ∉ seen →
  pending (seen ++ [v]) + length (DAG.children es v) = pending seen.
Proof using Type.
  intros Hv. unfold DAG.children. rewrite length_fmap.
  induction es as [|[p c] es' IH]; [done|].
  rewrite !filter_cons. simpl.
  destruct (decide (p = v)) as [->|Hne].
  - rewrite decide_False by (rewrite elem_of_app, list_elem_of_singleton; tauto).
    rewrite decide_True by done. simpl. lia.
  - destruct (decide (p ∈ seen)) as [Hin|Hnin].
    + rewrite decide_False by (rewrite elem_of_app; tauto).
      rewrite decide_False by tauto. done.
    + rewrite decide_True
        by (rewrite elem_of_app, list_elem_of_singleton; tauto).
      rewrite decide_True by done. simpl. lia.
Qed.

(** With fuel for every pending step, the traversal ends on an empty
    stack: its result holds the stack and what was seen, is closed under
    the edges of every vertex it adds, and adds only vertices reachable
    from the stack. *)
Lemma walk_spec fuel todo seen :
  length todo + pending seen ≤ fuel →
  let r := DAG.walk fuel es todo seen in
  (∀ v, v ∈ seen → v ∈ r) ∧
  (∀ v, v ∈ todo → v ∈ r) ∧
  (∀ v c, v ∈ r → v ∉ seen → DAG.edge_rel es v c → c ∈ r) ∧
  (∀ v, v ∈ r → v ∈ seen ∨ ∃ s, s ∈ todo ∧ rtc (DAG.edge_rel es) s v) ∧
  (NoDup seen → NoDup r).
Proof using Type.
  revert todo seen. induction fuel as [|fuel IH]; intros todo seen Hfuel.
  { destruct todo; [|simpl in Hfuel; lia]. simpl.
    repeat split; try done. - by intros ? ?%elem_of_nil. - auto. }
  destruct todo as [|v rest]; simpl.
  { repeat split; try done. - by intros ? ?%elem_of_nil. - auto. }
  destruct (decide (v ∈ seen)) as [Hin|Hnin].
  - destruct (IH rest seen) as (Hs & Ht & Hc & Hr & Hn);
      [simpl in Hfuel; lia|].
    repeat split; try done.
    + intros u [->|?]%elem_of_cons; auto.
    + intros u Hu. destruct (Hr u Hu) as [?|(s & ? & ?)]; [by left|].
      right. exists s. split; [by apply elem_of_cons; right|done].
  - pose proof (pending_visit seen v Hnin) as Hp.
    destruct (IH (DAG.children es v ++ rest) (seen ++ [v]))
      as (Hs & Ht & Hc & Hr & Hn).
    { rewrite length_app. simpl in Hfuel. lia. }
    repeat split.
    + intros u Hu. apply Hs, elem_of_app. by left.
    + intros u [->|Hu]%elem_of_cons.
      * apply Hs, elem_of_app. right. by apply list_elem_of_singleton.
      * apply Ht, elem_of_app. by right.
    + intros u c Hu Hnu Hedge. destruct (decide (u = v)) as [->|Hne].
      * apply Ht, elem_of_app. left. by apply elem_of_children.
      * apply (Hc u c Hu); [|done].
        rewrite elem_of_app, list_elem_of_singleton. tauto.
    + intros u Hu. destruct (Hr u Hu) as [Hsu|(s & Hs' & Hsu)].
      * apply elem_of_app in Hsu as [?|Huv%list_elem_of_singleton];
          [by left|subst u].
        right. exists v. split; [by left|done].
      * right. apply elem_of_app in Hs' as [Hch|Hrest].
        -- exists v. split; [by left|].
           eapply rtc_l; [|done]. by apply elem_of_children.
        -- exists s. split; [by right|done].
    + intros Hnd. apply Hn, NoDup_app. repeat split; [done| |].
      * intros u Hu Huv%list_elem_of_singleton. by subst u.
      * apply NoDup_singleton.
Qed.

End walk.

Lemma children_length es v : length (DAG.children es v) ≤ length es.
Proof. unfold DAG.children. rewrite length_fmap. apply length_filter. Qed.

Lemma walk_fuel_enough es v :
  length (DAG.children es v) + length (filter (λ e : edge, e.1 ∉ []) es)
  ≤ DAG.walk_fuel es.
Proof.
  pose proof (children_length es v).
  pose proof (length_filter (λ e : edge, e.1 ∉ []) es).
  unfold DAG.walk_fuel. lia.
Qed.

(** [getOffspringTyped] lists exactly the proper descendants. *)
Lemma elem_of_getOffspringTyped d v u :
  u ∈ DAG.getOffspringTyped d v ↔ DAG.descendant d v u ∧ u ≠ v.
Proof.
  unfold DAG.getOffspringTyped, DAG.descendant.
  rewrite list_elem_of_filter.
  destruct (walk_spec (DAG.edges d) (DAG.walk_fuel (DAG.edges d))
              (DAG.children (DAG.edges d) v) [])
    as (_ & Ht & Hc & Hr & _).
  { apply walk_fuel_enough. }
  split.
  - intros [Hne Hu]. split; [|done].
    destruct (Hr u Hu) as [[]%elem_of_nil|(s & Hs & Hsu)].
    eapply tc_rtc_r; [|done]. apply tc_once. by apply elem_of_children.
  - intros [Hd Hne]. split; [done|]. clear Hne.
    revert u Hd. apply tc_ind_r.
    + intros y Hxy. by apply Ht, elem_of_children.
    + intros y z _ Hyz IH. eapply Hc; [done| |done]. apply not_elem_of_nil.
Qed.

Lemma NoDup_getOffspringTyped d v : NoDup (DAG.getOffspringTyped d v).
Proof.
  unfold DAG.getOffspringTyped. apply NoDup_filter.
  destruct (walk_spec (DAG.edges d) (DAG.walk_fuel (DAG.edges d))
              (DAG.children (DAG.edges d) v) []) as (_ & _ & _ & _ & Hn).
  { apply walk_fuel_enough. }
  apply Hn, NoDup_nil_2.
Qed.

Lemma descendant_dec d v u : Decision (DAG.descendant d v u ∧ u ≠ v).
Proof.
  destruct (decide (u ∈ DAG.getOffspringTyped d v)) as [H|H];
    [left|right]; by rewrite <-elem_of_getOffspringTyped.
Defined.

(** ** Cycles *)

Section edges.
Context (es : list edge).
Implicit Types (v u p c : vertex) (rem : list vertex).

Local Abbreviation R := (DAG.edge_rel es).

(** A path in the graph with one more edge either avoids that edge or
    runs up to its source and goes on from its target. *)
Lemma tc_snoc_edge p c x y :
  tc (DAG.edge_rel (es ++ [(p, c)])) x y →
  tc R x y ∨ (rtc R x p ∧ rtc R c y).
Proof.
  assert (Hedge : ∀ a b, DAG.edge_rel (es ++ [(p, c)]) a b →
                         R a b ∨ (a = p ∧ b = c)).
  { intros a b [?|Hab%list_elem_of_singleton]%elem_of_app; [by left|].
    right. by inversion Hab. }
  induction 1 as [x y Hxy|x y z Hxy Hyz IH].
  - destruct (Hedge _ _ Hxy) as [?|[-> ->]]; [left; by apply tc_once|].
    by right.
  - destruct (Hedge _ _ Hxy) as [?|[-> ->]].
    + destruct IH as [?|[? ?]]; [left; by eapply tc_l|].
      right. split; [by eapply rtc_l|done].
    + right. split; [done|]. destruct IH as [?|[_ ?]]; [|done].
      by apply tc_rtc.
Qed.

Lemma tc_subset (es' : list edge) x y :
  (∀ e, e ∈ es' → e ∈ es) → tc (DAG.edge_rel es') x y → tc R x y.
Proof.
  intros Hsub. induction 1 as [x y Hxy|x y z Hxy Hyz IH].
  - apply tc_once. by apply Hsub.
  - eapply tc_l; [|done]. by apply Hsub.
Qed.

Context (Hacyclic : ∀ v, ¬ tc R v v).

Lemma tc_dec_acyclic v u : Decision (tc R v u).
Proof using Hacyclic.
  destruct (descendant_dec (DAG.Make [] es) v u) as [[H _]|H];
    [by left|right].
  intros Hd. apply H. split; [done|]. intros ->. by eapply Hacyclic.
Defined.

(** A non-empty set of vertices has one that no other reaches. *)
Lemma minimal_vertex rem :
  rem ≠ [] → ∃ m, m ∈ rem ∧ ∀ u, u ∈ rem → ¬ tc R u m.
Proof using Hacyclic.
  induction rem as [|a rem IH]; [done|]. intros _.
  destruct rem as [|b rem].
  { exists a. split; [by left|].
    intros u Hu%list_elem_of_singleton. subst u. apply Hacyclic. }
  destruct IH as (m & Hm & Hmin); [done|].
  destruct (tc_dec_acyclic a m) as [Ham|Ham].
  - exists a. split; [by left|]. intros u [->|Hu]%elem_of_cons.
    + apply Hacyclic.
    + intros Hua. apply (Hmin u Hu). by etrans.
  - exists m. split; [by right|]. intros u [->|Hu]%elem_of_cons; auto.
Qed.

Lemma ready_nonempty rem :
  rem ≠ [] → filter (λ v, ¬ DAG.has_parent_in es rem v) rem ≠ [].
Proof using Hacyclic.
  intros (m & Hm & Hmin)%minimal_vertex Hnil.
  eapply (filter_nil_not_elem_of _ _ m); [done| |done].
  unfold DAG.has_parent_in. rewrite Exists_exists.
  intros ([p c] & He & Hc & Hp). simpl in *. subst c.
  apply (Hmin p Hp). by apply tc_once.
Qed.

(** Kahn's algorithm emits every vertex once, parents first. *)
Lemma kahn_spec fuel rem :
  length rem ≤ fuel →
  DAG.kahn fuel es rem ≡ₚ rem ∧
  ∀ p c, c ∈ DAG.kahn fuel es rem → p ∈ rem → R p c →
         ∃ l1 l2, DAG.kahn fuel es rem = l1 ++ c :: l2 ∧ p ∈ l1.
Proof using Hacyclic.
  revert rem. induction fuel as [|fuel IH]; intros rem Hlen.
  { destruct rem; [|simpl in Hlen; lia]. simpl. split; [done|].
    by intros ?? ?%elem_of_nil. }
  simpl.
  pose proof (ready_nonempty rem) as Hready.
  pose proof (filter_app_complement (λ v, DAG.has_parent_in es rem v) rem)
    as Hperm.
  destruct (filter (λ v, ¬ DAG.has_parent_in es rem v) rem)
    as [|m ready] eqn:Hr.
  { destruct rem; [|by destruct Hready]. split; [done|].
    by intros ?? ?%elem_of_nil. }
  clear Hready.
  assert (Hin : ∀ v, v ∈ m :: ready ↔ ¬ DAG.has_parent_in es rem v ∧ v ∈ rem).
  { intros v. by rewrite <-Hr, list_elem_of_filter. }
  set (rest := filter (λ v, DAG.has_parent_in es rem v) rem) in *.
  assert (Hrest : length rest ≤ fuel).
  { destruct (Hin m) as [[Hnp Hm] _]; [by left|].
    pose proof (length_filter_lt (λ v, DAG.has_parent_in es rem v)
                  rem m Hm Hnp).
    subst rest. lia. }
  destruct (IH rest Hrest) as [IHperm IHtopo].
  change (m :: ready ++ DAG.kahn fuel es rest)
    with ((m :: ready) ++ DAG.kahn fuel es rest).
  revert Hin Hperm. generalize (m :: ready). clear Hr m ready.
  intros ready Hin Hperm. split.
  - by rewrite IHperm, (comm (++)).
  - intros p c Hc Hp Hpc. apply elem_of_app in Hc as [Hc|Hc].
    { apply Hin in Hc as [Hnp _]. destruct Hnp.
      unfold DAG.has_parent_in. rewrite Exists_exists. by exists (p, c). }
    destruct (decide (DAG.has_parent_in es rem p)) as [Hpp|Hpp].
    + destruct (IHtopo p c Hc) as (l1 & l2 & Heq & Hl1); [|done|].
      { by apply list_elem_of_filter. }
      exists (ready ++ l1), l2.
      rewrite Heq. split; [by rewrite (assoc_L (++))|].
      apply elem_of_app. by right.
    + apply list_elem_of_split in Hc as (l1 & l2 & Heq).
      exists (ready ++ l1), l2.
      rewrite Heq. split; [by rewrite (assoc_L (++))|].
      apply elem_of_app. left. by apply Hin.
Qed.

End edges.

Lemma earlier_split (l l1 l2 : list vertex) p c :
  l = l1 ++ c :: l2 → p ∈ l1 → DAG.earlier l p c.
Proof.
  intros -> [i Hi]%list_elem_of_lookup. exists i, (length l1).
  pose proof (lookup_lt_Some _ _ _ Hi). split; [done|]. split.
  - by rewrite lookup_app_l.
  - by rewrite list_lookup_middle.
Qed.

(** [sort] on an acyclic graph: a permutation of the vertices in which
    every edge points forward. *)
Lemma sort_perm d : DAG.acyclic d → DAG.sort d ≡ₚ DAG.nodes d.
Proof. intros Ha. by apply kahn_spec. Qed.

Lemma sort_topological d p c :
  DAG.acyclic d → p ∈ DAG.nodes d → c ∈ DAG.nodes d →
  (p, c) ∈ DAG.edges d →
  ∃ l1 l2, DAG.sort d = l1 ++ c :: l2 ∧ p ∈ l1.
Proof.
  intros Ha Hp Hc Hpc.
  destruct (kahn_spec (DAG.edges d) Ha (length (DAG.nodes d)) (DAG.nodes d))
    as [Hperm Htopo]; [done|].
  apply Htopo; [|done..]. by rewrite Hperm.
Qed.

(** ** The DAG operations keep the graph well formed *)

Lemma hasNode_true d v : DAG.hasNode d v = true ↔ v ∈ DAG.nodes d.
Proof. unfold DAG.hasNode. apply bool_decide_eq_true. Qed.

Lemma hasNode_false d v : DAG.hasNode d v = false ↔ v ∉ DAG.nodes d.
Proof. unfold DAG.hasNode. apply bool_decide_eq_false. Qed.

Lemma addNode_Ok d v d' :
  DAG.addNode d v = Ok d' ↔
  (v ∉ DAG.nodes d) ∧ d' = DAG.Make (DAG.nodes d ++ [v]) (DAG.edges d).
Proof.
  unfold DAG.addNode. destruct (DAG.hasNode d v) eqn:Hh.
  - apply hasNode_true in Hh. split; [done|]. by intros [].
  - apply hasNode_false in Hh. split; [by intros [= <-]|by intros [_ ->]].
Qed.

Lemma addNode_Raise d v e :
  DAG.addNode d v = Raise e ↔ v ∈ DAG.nodes d ∧ e = KeyError AlreadyExists.
Proof.
  unfold DAG.addNode. destruct (DAG.hasNode d v) eqn:Hh.
  - apply hasNode_true in Hh. split; [by intros [= <-]|by intros [_ ->]].
  - apply hasNode_false in Hh. split; [done|]. by intros [].
Qed.

Lemma addEdge_Ok d p c d' :
  DAG.addEdge d p c = Ok d' ↔
  (p ∈ DAG.nodes d ∧ c ∈ DAG.nodes d ∧ ((p, c) ∉ DAG.edges d) ∧
   ¬ rtc (DAG.edge_rel (DAG.edges d)) c p) ∧
  d' = DAG.Make (DAG.nodes d) (DAG.edges d ++ [(p, c)]).
Proof.
  unfold DAG.addEdge.
  assert (Hcyc : DAG.wouldCycle d p c = false
                 ↔ ¬ rtc (DAG.edge_rel (DAG.edges d)) c p).
  { unfold DAG.wouldCycle.
    rewrite orb_false_iff, !bool_decide_eq_false, elem_of_getOffspringTyped.
    rewrite rtc_tc. unfold DAG.descendant. split.
    - intros [Hne Hno] [Heq|Htc]; [by apply Hne|]. by apply Hno.
    - intros Hn. split; [intros ->; apply Hn; by left|].
      intros [Htc _]. apply Hn. by right. }
  rewrite <-(hasNode_true d p), <-(hasNode_true d c).
  destruct (DAG.hasNode d p), (DAG.hasNode d c); simpl;
    try (split; [done|by intros [(? & ? & _) _]]).
  case_bool_decide as He.
  { split; [done|]. by intros [(_ & _ & Hn & _) _]. }
  destruct (DAG.wouldCycle d p c) eqn:Hw.
  - split; [done|]. intros [(_ & _ & _ & Hn) _]. apply Hcyc in Hn. congruence.
  - pose proof (proj1 Hcyc eq_refl). split; [by intros [= <-]|by intros [_ ->]].
Qed.

Lemma addEdge_Ok_intro d p c :
  p ∈ DAG.nodes d → c ∈ DAG.nodes d → (p, c) ∉ DAG.edges d →
  ¬ rtc (DAG.edge_rel (DAG.edges d)) c p →
  DAG.addEdge d p c = Ok (DAG.Make (DAG.nodes d) (DAG.edges d ++ [(p, c)])).
Proof. intros. by apply addEdge_Ok. Qed.

Lemma addEdge_acyclic d p c d' :
  DAG.acyclic d → DAG.addEdge d p c = Ok d' → DAG.acyclic d'.
Proof.
  intros Ha [(_ & _ & _ & Hn) ->]%addEdge_Ok v Hv.
  apply tc_snoc_edge in Hv as [Hv|[Hvp Hcv]]; [by apply (Ha v)|].
  apply Hn. by etrans.
Qed.

(** ** Liveness setters *)

Import DepGraph.

(** Unfolding of the method-body combinators. *)
Ltac munfold :=
  unfold mbind, M_bind, bind, mret, M_ret, ret, raise, lift, dag_read,
    dag_call, state_set, state_del, except_KeyError in *.

(** The loop of [_setState] over the offspring: it never raises, leaves
    the DAG alone and stores [False] for the kids of the same object. *)
Lemma invalidate_loop (o : object) (l : list vertex) (self : t) :
  let r := for_ l (λ kid : vertex,
             if decide (kid.1 = o) then state_set kid false else ret tt) self in
  r.1 = Ok tt ∧ _dag r.2 = _dag self ∧
  ∀ v, _state r.2 !! v =
       if decide (v ∈ l ∧ v.1 = o) then Some false else _state self !! v.
Proof.
  revert self. induction l as [|kid l IH]; intros self; simpl.
  { by repeat split. }
  munfold.
  destruct (decide (kid.1 = o)) as [Hk|Hk]; simpl.
  - destruct (IH (Make (_dag self) (<[kid:=false]> (_state self))))
      as (Hok & Hdag & Hst).
    repeat split; [done..|]. intros v. rewrite Hst. simpl.
    destruct (decide (v = kid)) as [->|Hne].
    + rewrite (decide_True (P := kid ∈ kid :: l ∧ _))
        by (split; [by left|done]).
      rewrite lookup_insert_eq. by case_decide.
    + rewrite lookup_insert_ne by done.
      apply decide_ext. rewrite elem_of_cons. tauto.
  - destruct (IH self) as (Hok & Hdag & Hst).
    repeat split; [done..|]. intros v. rewrite Hst.
    apply decide_ext. rewrite elem_of_cons. split; [tauto|].
    intros [[->|?] ?]; tauto.
Qed.

Lemma setState_true o k self :
  _setState o k true self
  = (Ok tt, Make (_dag self) (<[(o, k) := true]> (_state self))).
Proof. done. Qed.

Lemma setState_false o k self :
  let r := _setState o k false self in
  r.1 = Ok tt ∧ _dag r.2 = _dag self ∧
  ∀ v, _state r.2 !! v =
       if decide (v = (o, k) ∨
                  (v ∈ DAG.getOffspringTyped (_dag self) (o, k) ∧ v.1 = o))
       then Some false else _state self !! v.
Proof.
  unfold _setState. munfold. simpl.
  destruct (invalidate_loop o (DAG.getOffspringTyped (_dag self) (o, k))
              (Make (_dag self) (<[(o, k):=false]> (_state self))))
    as (Hok & Hdag & Hst).
  simpl in *. repeat split; [done..|]. intros v. rewrite Hst.
  destruct (decide (v = (o, k))) as [->|Hne].
  - rewrite lookup_insert_eq. rewrite (decide_True (P := _ ∨ _)) by by left.
    by case_decide.
  - rewrite lookup_insert_ne by done. apply decide_ext. tauto.
Qed.

Lemma call_setter_setState s :
  call_setter s = _setState (setter_vertex s).1 (setter_vertex s).2
                            (setter_value s).
Proof. by destruct s. Qed.

(** C9: a setter that stores [True] succeeds, leaves the vertices and the
    edges as they are, stores [True] for its own vertex and changes the
    liveness of no other vertex. *)
Theorem setter_true_frame (s : setter) (self : t) :
  setter_value s = true →
  let r := call_setter s self in
  r.1 = Ok tt ∧
  DAG.nodes (_dag r.2) = DAG.nodes (_dag self) ∧
  DAG.edges (_dag r.2) = DAG.edges (_dag self) ∧
  _state r.2 !! setter_vertex s = Some true ∧
  ∀ v, v ≠ setter_vertex s → _state r.2 !! v = _state self !! v.
Proof.
  intros Hval r. subst r. rewrite call_setter_setState, Hval.
  destruct (setter_vertex s) as [o k]. rewrite setState_true. simpl.
  repeat split; [apply lookup_insert_eq|].
  intros v Hv. by rewrite lookup_insert_ne.
Qed.

(** C2: a setter that stores [False] for the vertex [v0] succeeds, leaves
    the DAG as it is and stores [False] for [v0] and for exactly the
    descendants of [v0] that have the object of [v0]: every other vertex
    keeps the liveness it had. *)
Theorem setter_false_cascade (s : setter) (self : t) :
  setter_value s = false →
  let v0 := setter_vertex s in
  let r := call_setter s self in
  r.1 = Ok tt ∧ _dag r.2 = _dag self ∧
  _state r.2 !! v0 = Some false ∧
  ∀ v, v ≠ v0 →
    (DAG.descendant (_dag self) v0 v ∧ v.1 = v0.1 →
       _state r.2 !! v = Some false) ∧
    (¬ (DAG.descendant (_dag self) v0 v ∧ v.1 = v0.1) →
       _state r.2 !! v = _state self !! v).
Proof.
  intros Hval v0 r. subst v0 r. rewrite call_setter_setState, Hval.
  destruct (setter_vertex s) as [o k].
  destruct (setState_false o k self) as (Hok & Hdag & Hst). simpl in *.
  repeat split; [done..| | |].
  - rewrite Hst. by rewrite decide_True by by left.
  - intros [Hd Ho]. rewrite Hst. rewrite decide_True; [done|].
    right. split; [|done]. by apply elem_of_getOffspringTyped.
  - intros Hn. rewrite Hst. rewrite decide_False; [done|].
    intros [?|[[Hd _]%elem_of_getOffspringTyped Ho]]; tauto.
Qed.

(** ** Invariants of the dependency graph *)

Section preserves.
Context (I : t → Prop).

Lemma preserves_ret {A} (a : A) : preserves I (ret a).
Proof. intros self HI. exact HI. Qed.

Lemma preserves_raise {A} e : preserves I (raise (A := A) e).
Proof. intros self HI. exact HI. Qed.

Lemma preserves_lift {A} (x : outcome A) : preserves I (lift x).
Proof. intros self HI. exact HI. Qed.

Lemma preserves_dag_read {A} (f : DAG.t → A) : preserves I (dag_read f).
Proof. intros self HI. exact HI. Qed.

Lemma preserves_bind {A B} (m : M A) (f : A → M B) :
  preserves I m → (∀ a, preserves I (f a)) → preserves I (m ≫= f).
Proof.
  intros Hm Hf self HI. specialize (Hm self HI). munfold.
  destruct (m self) as [[a|e] self']; simpl in *; [by apply Hf|done].
Qed.

Lemma preserves_for {A} (l : list A) (body : A → M unit) :
  (∀ x, x ∈ l → preserves I (body x)) → preserves I (for_ l body).
Proof.
  induction l as [|x l IH]; intros Hbody; simpl; [apply preserves_ret|].
  apply preserves_bind; [apply Hbody; by left|]. intros _.
  apply IH. intros y Hy. apply Hbody. by right.
Qed.

Lemma preserves_foldM {A S} (body : S → A → M S) (s : S) (l : list A) :
  (∀ s x, x ∈ l → preserves I (body s x)) → preserves I (foldM body s l).
Proof.
  revert s. induction l as [|x l IH]; intros s Hbody; simpl;
    [apply preserves_ret|].
  apply preserves_bind; [apply Hbody; by left|]. intros s'.
  apply IH. intros s'' y Hy. apply Hbody. by right.
Qed.

Lemma preserves_except (m : M unit) :
  preserves I m → preserves I (except_KeyError m).
Proof.
  intros Hm self HI. specialize (Hm self HI). munfold.
  by destruct (m self) as [[[]|[]] self'].
Qed.

Lemma preserves_if {A} (b : bool) (m1 m2 : M A) :
  preserves I m1 → preserves I m2 → preserves I (if b then m1 else m2).
Proof. destruct b; tauto. Qed.

End preserves.

(** Every method is built from four mutations: an assignment to [_state],
    [_addNode], [_addEdge] towards a kind that is not an earlier one, and
    the removal of a vertex together with its liveness entry.  The methods
    keep what these keep. *)
Section methods.
Context (I : t → Prop) (Tadd Tdel : vertex → Prop).
Context (Hset : ∀ v b, preserves I (state_set v b)).
Context (HaddNode : ∀ o k, Tadd (o, k) → preserves I (_addNode o k)).
Context (HaddEdge : ∀ p c pk ck, kind_to_nat pk ≤ kind_to_nat ck →
                                 preserves I (_addEdge p c pk ck)).
Context (Hremove : ∀ v, Tdel v →
           preserves I (dag_call (λ d, DAG.removeNode d v);; state_del v)).

Lemma keeps_setState o k b : preserves I (_setState o k b).
Proof using Hset.
  unfold _setState. apply preserves_bind; [apply Hset|]. intros _.
  apply preserves_if; [|apply preserves_ret].
  apply preserves_bind; [apply preserves_dag_read|]. intros offspring.
  apply preserves_for. intros kid _.
  destruct (decide _); [apply Hset|apply preserves_ret].
Qed.

Lemma keeps_addWorker w :
  Tadd (Worker w, WORKER) → preserves I (addWorker w).
Proof using HaddNode.
  intros Hw. unfold addWorker.
  apply preserves_bind; [apply preserves_dag_read|].
  intros b. apply preserves_if; [apply preserves_ret|]. by apply HaddNode.
Qed.

Lemma keeps_setComponentWorker c w : preserves I (setComponentWorker c w).
Proof using HaddEdge.
  unfold setComponentWorker.
  apply preserves_bind; [apply preserves_dag_read|]. intros b1.
  apply preserves_bind; [apply preserves_dag_read|]. intros b2.
  apply preserves_if; [|apply preserves_raise].
  apply HaddEdge. simpl. lia.
Qed.

Lemma keeps_addComponent c :
  (∀ k, k ≠ WORKER → Tadd (Comp c, k)) → (∀ w, Tadd (Worker w, WORKER)) →
  preserves I (addComponent c).
Proof using HaddNode HaddEdge.
  intros Hc Hw. unfold addComponent.
  apply preserves_bind; [by apply HaddNode, Hc|]. intros _.
  apply preserves_bind; [by apply HaddNode, Hc|]. intros _.
  apply preserves_bind; [by apply HaddNode, Hc|]. intros _.
  apply preserves_bind; [apply HaddEdge; simpl; lia|]. intros _.
  apply preserves_bind; [|intros _; apply HaddEdge; simpl; lia].
  destruct (truthy (workerRequested c)); [|apply preserves_ret].
  apply preserves_bind; [by apply keeps_addWorker|]. intros _.
  apply keeps_setComponentWorker.
Qed.

Lemma keeps_addClockMaster c :
  Tadd (Comp c, CLOCKMASTER) → preserves I (addClockMaster c).
Proof using HaddNode HaddEdge.
  intros Hc. unfold addClockMaster.
  apply preserves_bind; [apply preserves_dag_read|]. intros b.
  apply preserves_if; [|apply preserves_raise].
  apply preserves_bind; [by apply HaddNode|]. intros _.
  apply preserves_bind; [apply HaddEdge; simpl; lia|]. intros _.
  apply preserves_bind; [apply preserves_dag_read|]. intros startnodes.
  apply preserves_for. intros start _.
  apply preserves_bind; [apply preserves_lift|]. intros p.
  destruct (decide _); [|apply preserves_ret].
  apply HaddEdge. simpl. lia.
Qed.

Lemma keeps_removeComponent c :
  (∀ k, Tdel (Comp c, k)) → preserves I (removeComponent c).
Proof using Hremove.
  intros Hc. unfold removeComponent. apply preserves_for. intros k _.
  apply preserves_bind; [apply preserves_dag_read|]. intros b.
  apply preserves_if; [|apply preserves_ret]. by apply Hremove.
Qed.

Lemma keeps_removeWorker w :
  Tdel (Worker w, WORKER) → preserves I (removeWorker w).
Proof using Hremove.
  intros Hw. unfold removeWorker.
  apply preserves_bind; [apply preserves_dag_read|]. intros b.
  apply preserves_if; [|apply preserves_ret]. by apply Hremove.
Qed.

Lemma keeps_mapEatersToFeeders : preserves I mapEatersToFeeders.
Proof using HaddEdge.
  unfold mapEatersToFeeders.
  apply preserves_bind; [apply preserves_dag_read|]. intros compsetups.
  apply preserves_for. intros eatercomp _.
  apply preserves_bind; [apply preserves_lift|]. intros [src|];
    [|apply preserves_ret].
  apply preserves_for. intros eater _. unfold map_eater.
  apply preserves_bind.
  - apply preserves_foldM. intros found feedercomp _. unfold match_feeder.
    apply preserves_bind; [apply preserves_lift|]. intros n.
    destruct (decide _); [|apply preserves_ret].
    apply preserves_bind; [apply preserves_except, HaddEdge; done|].
    intros _.
    apply preserves_bind; [apply preserves_except, HaddEdge; done|].
    intros _. apply preserves_ret.
  - intros []; [apply preserves_ret|apply preserves_raise].
Qed.

End methods.

Lemma rank_rtc es a b :
  (∀ p c, (p, c) ∈ es → kind_to_nat p.2 ≤ kind_to_nat c.2) →
  rtc (DAG.edge_rel es) a b → kind_to_nat a.2 ≤ kind_to_nat b.2.
Proof.
  intros Hrank. induction 1 as [|x y z Hxy _ IH]; [done|].
  apply Hrank in Hxy. lia.
Qed.

Lemma base_empty : base empty.
Proof.
  split; simpl; try by intros ? ?%elem_of_nil.
  - apply NoDup_nil_2.
  - by intros ?? ?%elem_of_nil.
  - intros v Hv. destruct Hv as [x y H|x y z H _]; by apply elem_of_nil in H.
  - by intros ?? ?%elem_of_nil.
Qed.

Lemma base_state_set v b : preserves base (state_set v b).
Proof.
  intros self [Hnd He Ha Hl Ht Hr]. split; simpl; try done.
  intros u Hu. destruct (decide (v = u)) as [->|Hne].
  - rewrite lookup_insert_eq. by eexists.
  - rewrite lookup_insert_ne by done. by apply Hl.
Qed.

Lemma base_addNode o k : well_typed (o, k) → preserves base (_addNode o k).
Proof.
  intros Hty self [Hnd He Ha Hl Ht Hr]. unfold _addNode. munfold.
  destruct (DAG.addNode (_dag self) (o, k)) as [d'|e] eqn:Hadd; simpl;
    [|by split].
  apply addNode_Ok in Hadd as [Hfresh ->]. split; simpl.
  - apply NoDup_app. repeat split; [done| |apply NoDup_singleton].
    intros u Hu Huv%list_elem_of_singleton. by subst u.
  - intros p c Hpc. destruct (He p c Hpc). rewrite !elem_of_app. tauto.
  - exact Ha.
  - intros u [Hu|Hu%list_elem_of_singleton]%elem_of_app.
    + destruct (decide ((o, k) = u)) as [->|Hne].
      * rewrite lookup_insert_eq. by eexists.
      * rewrite lookup_insert_ne by done. by apply Hl.
    + subst u. rewrite lookup_insert_eq. by eexists.
  - intros u [Hu|Hu%list_elem_of_singleton]%elem_of_app; [by apply Ht|].
    by subst u.
  - exact Hr.
Qed.

Lemma base_addEdge p c pk ck :
  kind_to_nat pk ≤ kind_to_nat ck → preserves base (_addEdge p c pk ck).
Proof.
  intros Hrank self [Hnd He Ha Hl Ht Hr]. unfold _addEdge. munfold.
  destruct (DAG.addEdge (_dag self) (p, pk) (c, ck)) as [d'|e] eqn:Hadd;
    simpl; [|by split].
  pose proof (addEdge_acyclic _ _ _ _ Ha Hadd) as Ha'.
  apply addEdge_Ok in Hadd as [(Hp & Hc & _) ->]. split; simpl; try done.
  - intros p' c' [?|Heq%list_elem_of_singleton]%elem_of_app; [by apply He|].
    by inversion Heq; subst.
  - intros p' c' [?|Heq%list_elem_of_singleton]%elem_of_app; [by apply Hr|].
    by inversion Heq; subst.
Qed.

Lemma removeNode_Ok d v d' :
  DAG.removeNode d v = Ok d' ↔
  v ∈ DAG.nodes d ∧
  d' = DAG.Make (filter (λ u, u ≠ v) (DAG.nodes d))
         (filter (λ e : edge, e.1 ≠ v ∧ e.2 ≠ v) (DAG.edges d)).
Proof.
  unfold DAG.removeNode. rewrite <-hasNode_true.
  destruct (DAG.hasNode d v); split; try done.
  - by intros [= <-].
  - by intros [_ ->].
  - by intros [].
Qed.

Lemma base_removeNode_del v :
  preserves base (dag_call (λ d, DAG.removeNode d v);; state_del v).
Proof.
  intros self [Hnd He Ha Hl Ht Hr]. munfold.
  destruct (DAG.removeNode (_dag self) v) as [d'|e] eqn:Hrm; simpl;
    [|by split].
  apply removeNode_Ok in Hrm as [Hv ->].
  assert (Hbase : ∀ st : gmap vertex bool,
            (∀ u, u ≠ v → is_Some (_state self !! u) → is_Some (st !! u)) →
            base (Make (DAG.Make (filter (λ u, u ≠ v) (DAG.nodes (_dag self)))
                    (filter (λ e : edge, e.1 ≠ v ∧ e.2 ≠ v)
                            (DAG.edges (_dag self)))) st)).
  { intros st Hst. split; simpl.
    - by apply NoDup_filter.
    - intros p c [[Hpv Hcv] Hpc]%list_elem_of_filter. simpl in *.
      destruct (He p c Hpc). rewrite !list_elem_of_filter. tauto.
    - intros u Hu. apply (Ha u). revert Hu. apply tc_subset.
      by intros e [_ ?]%list_elem_of_filter.
    - intros u [Hne Hu]%list_elem_of_filter. apply Hst; [done|by apply Hl].
    - intros u [_ Hu]%list_elem_of_filter. by apply Ht.
    - intros p c [_ Hpc]%list_elem_of_filter. by apply Hr. }
  destruct (_state self !! v) eqn:Hlook; simpl.
  - apply Hbase. intros u Hne Hu. by rewrite lookup_delete_ne.
  - by apply Hbase.
Qed.

Lemma base_call o : preserves base (call o).
Proof.
  pose proof base_state_set as Hset. pose proof base_addNode as Hnode.
  pose proof base_addEdge as Hedge.
  assert (Hrm : ∀ v, True → preserves base
            (dag_call (λ d, DAG.removeNode d v);; state_del v))
    by (intros v _; apply base_removeNode_del).
  destruct o as [c|c|w|c|w|c w| | |s]; simpl.
  - by apply (keeps_addClockMaster base well_typed).
  - apply (keeps_addComponent base well_typed); [done..| |done].
    by intros k ?.
  - by apply (keeps_addWorker base well_typed).
  - by apply (keeps_removeComponent base (λ _, True)).
  - by apply (keeps_removeWorker base (λ _, True)).
  - by apply keeps_setComponentWorker.
  - by apply keeps_mapEatersToFeeders.
  - by intros self.
  - rewrite call_setter_setState. by apply keeps_setState.
Qed.

Lemma reachable_base self : reachable self → base self.
Proof.
  induction 1 as [|o self _ IH]; [apply base_empty|by apply base_call].
Qed.

(** ** Running a method step by step *)

Lemma bind_Ok {A B} (m : M A) (f : A → M B) self a self' :
  m self = (Ok a, self') → (m ≫= f) self = f a self'.
Proof. intros Hm. munfold. by rewrite Hm. Qed.

Lemma bind_Raise {A B} (m : M A) (f : A → M B) self e self' :
  m self = (Raise e, self') → (m ≫= f) self = (Raise e, self').
Proof. intros Hm. munfold. by rewrite Hm. Qed.

Lemma addNode_run_fresh o k self :
  (o, k) ∉ DAG.nodes (_dag self) →
  _addNode o k self
  = (Ok tt, Make (DAG.Make (DAG.nodes (_dag self) ++ [(o, k)])
                           (DAG.edges (_dag self)))
                 (<[(o, k) := false]> (_state self))).
Proof.
  intros Hfresh. unfold _addNode. munfold.
  by rewrite (proj2 (addNode_Ok _ _ _) (conj Hfresh eq_refl)).
Qed.

Lemma addNode_run_present o k self :
  (o, k) ∈ DAG.nodes (_dag self) →
  _addNode o k self = (Raise (KeyError AlreadyExists), self).
Proof.
  intros Hin. unfold _addNode. munfold.
  by rewrite (proj2 (addNode_Raise _ _ _) (conj Hin eq_refl)).
Qed.

(** An edge towards a later kind between two vertices of the graph is
    added unless it is there already. *)
Lemma addEdge_run_forward p c pk ck self :
  base self →
  (p, pk) ∈ DAG.nodes (_dag self) → (c, ck) ∈ DAG.nodes (_dag self) →
  ((p, pk), (c, ck)) ∉ DAG.edges (_dag self) →
  kind_to_nat pk < kind_to_nat ck →
  _addEdge p c pk ck self
  = (Ok tt, Make (DAG.Make (DAG.nodes (_dag self))
                           (DAG.edges (_dag self) ++ [((p, pk), (c, ck))]))
                 (_state self)).
Proof.
  intros Hbase Hp Hc Hfresh Hlt. unfold _addEdge. munfold.
  rewrite addEdge_Ok_intro; [done..|]. intros Hrtc.
  apply (rank_rtc _ _ _ (base_ranked _ Hbase)) in Hrtc. simpl in Hrtc. lia.
Qed.

(** The effect of a DAG call on the vertices. *)
Lemma addEdge_nodes p c pk ck self :
  DAG.nodes (_dag (_addEdge p c pk ck self).2) = DAG.nodes (_dag self) ∧
  _state (_addEdge p c pk ck self).2 = _state self.
Proof.
  unfold _addEdge. munfold.
  destruct (DAG.addEdge _ _ _) as [d'|e] eqn:Hadd; [|done].
  by apply addEdge_Ok in Hadd as [_ ->].
Qed.

(** ** The three vertices of a component *)

(** [self] has the [JOB], [COMPONENTSETUP] and [COMPONENTSTART] vertices
    that [ns] has. *)
Local Abbreviation same_components ns self :=
  (∀ v : vertex, v.2 ≠ WORKER → v.2 ≠ CLOCKMASTER →
                 v ∈ DAG.nodes (_dag self) ↔ v ∈ ns).

Lemma triple_same_components ns ns' :
  (∀ v : vertex, v.2 ≠ WORKER → v.2 ≠ CLOCKMASTER → v ∈ ns' ↔ v ∈ ns) →
  triple ns → triple ns'.
Proof.
  intros Hsame Htr c. rewrite !Hsame by done. apply Htr.
Qed.

Section same_components.
Context (ns : list vertex).

Local Abbreviation keeps m := (preserves (λ self, same_components ns self) m).

Lemma same_state_set v b : keeps (state_set v b).
Proof. by intros self H. Qed.

Lemma same_addEdge p c pk ck : keeps (_addEdge p c pk ck).
Proof.
  intros self H v ??. destruct (addEdge_nodes p c pk ck self) as [-> _].
  by apply H.
Qed.

Lemma same_addNode o k :
  k = WORKER ∨ k = CLOCKMASTER → keeps (_addNode o k).
Proof.
  intros Hk self H v ??.
  destruct (decide ((o, k) ∈ DAG.nodes (_dag self))) as [Hin|Hfresh].
  - rewrite addNode_run_present by done. by apply H.
  - rewrite addNode_run_fresh by done. simpl.
    rewrite elem_of_app, list_elem_of_singleton, H by done.
    split; [|tauto]. intros [?| ->]; [done|]. simpl in *. by destruct Hk.
Qed.

Lemma same_removeNode_del o :
  keeps (dag_call (λ d, DAG.removeNode d (o, WORKER));;
         state_del (o, WORKER)).
Proof.
  intros self H v ??. munfold.
  destruct (DAG.removeNode _ _) as [d'|e] eqn:Hrm; simpl; [|by apply H].
  apply removeNode_Ok in Hrm as [_ ->].
  assert (v ∈ filter (λ u, u ≠ (o, WORKER)) (DAG.nodes (_dag self)) ↔ v ∈ ns).
  { rewrite list_elem_of_filter, H by done. split; [tauto|].
    intros ?. split; [|done]. intros ->. done. }
  by destruct (_state self !! _).
Qed.

Lemma same_call o :
  (∀ c, o ≠ AddComponent c) → (∀ c, o ≠ RemoveComponent c) →
  keeps (call o).
Proof.
  intros Hadd Hrm.
  pose proof same_state_set as Hset. pose proof same_addNode as Hnode.
  assert (Hedge : ∀ p c pk ck, kind_to_nat pk ≤ kind_to_nat ck →
                               keeps (_addEdge p c pk ck))
    by (intros; apply same_addEdge).
  assert (Hdel : ∀ v : vertex, v.2 = WORKER →
            keeps (dag_call (λ d, DAG.removeNode d v);; state_del v)).
  { intros [o' k] Hk. simpl in Hk. subst k. apply same_removeNode_del. }
  destruct o as [c|c|w|c|w|c w| | |s]; simpl.
  - apply (keeps_addClockMaster _
             (λ v : vertex, v.2 = WORKER ∨ v.2 = CLOCKMASTER) Hnode Hedge).
    by right.
  - by destruct (Hadd c).
  - apply (keeps_addWorker _
             (λ v : vertex, v.2 = WORKER ∨ v.2 = CLOCKMASTER) Hnode).
    by left.
  - by destruct (Hrm c).
  - by apply (keeps_removeWorker _ (λ v : vertex, v.2 = WORKER) Hdel).
  - by apply keeps_setComponentWorker.
  - by apply keeps_mapEatersToFeeders.
  - by intros self.
  - rewrite call_setter_setState. by apply keeps_setState.
Qed.

End same_components.

Lemma removeNode_del_run v self :
  base self → v ∈ DAG.nodes (_dag self) →
  (dag_call (λ d, DAG.removeNode d v);; state_del v) self
  = (Ok tt,
     Make (DAG.Make (filter (λ u, u ≠ v) (DAG.nodes (_dag self)))
             (filter (λ e : edge, e.1 ≠ v ∧ e.2 ≠ v) (DAG.edges (_dag self))))
          (delete v (_state self))).
Proof.
  intros Hbase Hv. munfold.
  rewrite (proj2 (removeNode_Ok _ _ _) (conj Hv eq_refl)). simpl.
  by destruct (base_live _ Hbase v Hv) as [b ->].
Qed.

(** The loop of [removeComponent] over a list of kinds. *)
Lemma removeComponent_loop c ks self :
  base self →
  let r := for_ ks (λ type,
             has ← dag_read (λ d, DAG.hasNode d (Comp c, type));
             if has : bool then
               _removeNode (Comp c) type;; state_del (Comp c, type)
             else ret tt) self in
  r.1 = Ok tt ∧
  (∀ v, v ∈ DAG.nodes (_dag r.2) ↔
        v ∈ DAG.nodes (_dag self) ∧ ¬ (v.1 = Comp c ∧ v.2 ∈ ks)) ∧
  (∀ v, _state r.2 !! v =
        if decide (v ∈ DAG.nodes (_dag self) ∧ v.1 = Comp c ∧ v.2 ∈ ks)
        then None else _state self !! v).
Proof.
  revert self. induction ks as [|k ks IH]; intros self Hbase; simpl.
  { split; [done|]. split.
    - intros v. split; [|tauto]. intros ?. split; [done|].
      by intros [_ ?%elem_of_nil].
    - intros v. rewrite decide_False; [done|].
      by intros (_ & _ & ?%elem_of_nil). }
  set (body := λ type, _) in *.
  assert (Hstep : ∃ self1, body k self = (Ok tt, self1) ∧ base self1 ∧
    (∀ v, v ∈ DAG.nodes (_dag self1) ↔
          v ∈ DAG.nodes (_dag self) ∧ v ≠ (Comp c, k)) ∧
    (∀ v, _state self1 !! v =
          if decide (v ∈ DAG.nodes (_dag self) ∧ v = (Comp c, k))
          then None else _state self !! v)).
  { pose proof (base_removeNode_del (Comp c, k) self Hbase) as Hb.
    subst body. cbv beta. unfold _removeNode.
    rewrite (bind_Ok _ _ self _ self (eq_refl : dag_read _ self = _)).
    destruct (DAG.hasNode _ _) eqn:Hhas.
    - apply hasNode_true in Hhas.
      rewrite removeNode_del_run in * by done. eexists. split; [done|].
      simpl in *. split; [done|]. split.
      + intros v. by rewrite list_elem_of_filter, (comm (∧)).
      + intros v. destruct (decide (v = (Comp c, k))) as [->|Hne].
        * rewrite lookup_delete_eq. by rewrite decide_True.
        * rewrite lookup_delete_ne by done. rewrite decide_False; tauto.
    - apply hasNode_false in Hhas. exists self.
      split; [done|]. split; [done|]. split.
      + intros v. split; [|tauto]. intros ?. split; [done|].
        intros ->. done.
      + intros v. rewrite decide_False; [done|]. intros [? ->]. done. }
  destruct Hstep as (self1 & Hrun & Hbase1 & Hn1 & Hs1).
  rewrite (bind_Ok _ _ _ _ _ Hrun).
  destruct (IH self1 Hbase1) as (Hok & Hn & Hs). split; [done|]. split.
  - intros v. rewrite Hn, Hn1, elem_of_cons. destruct v as [o k']. simpl.
    split.
    + intros [[? Hne] Hno]. split; [done|]. intros [-> [->|?]]; tauto.
    + intros [? Hno]. repeat split; [done| |tauto].
      intros [= -> ->]. apply Hno. split; [done|by left].
  - intros v. rewrite Hs.
    destruct (decide (v ∈ DAG.nodes (_dag self1) ∧ v.1 = Comp c ∧ v.2 ∈ ks))
      as [(Hin & ? & ?)|H1].
    { rewrite decide_True; [done|]. apply Hn1 in Hin as [? _].
      split; [done|]. split; [done|by right]. }
    rewrite Hs1.
    destruct (decide (v ∈ DAG.nodes (_dag self) ∧ v = (Comp c, k)))
      as [[? ->]|H2].
    { rewrite decide_True; [done|]. split; [done|]. split; [done|by left]. }
    rewrite decide_False; [done|].
    intros (Hin & Hc & [Hk|Hk]%elem_of_cons).
    + apply H2. split; [done|]. destruct v; simpl in *; by subst.
    + apply H1. split; [|done]. apply Hn1. split; [done|].
      intros ->. by apply H2.
Qed.

Lemma addComponent_present c self :
  (Comp c, JOB) ∈ DAG.nodes (_dag self) →
  addComponent c self = (Raise (KeyError AlreadyExists), self).
Proof.
  intros Hin. unfold addComponent.
  by rewrite (bind_Raise _ _ _ _ _ (addNode_run_present _ _ _ Hin)).
Qed.

Lemma addWorker_run w self :
  addWorker w self
  = if decide ((Worker w, WORKER) ∈ DAG.nodes (_dag self)) then (Ok tt, self)
    else _addNode (Worker w) WORKER self.
Proof.
  unfold addWorker.
  rewrite (bind_Ok _ _ self _ self (eq_refl : dag_read _ self = _)).
  unfold DAG.hasNode. by destruct (decide _) as [H|H];
    [rewrite bool_decide_eq_true_2|rewrite bool_decide_eq_false_2].
Qed.

Lemma setComponentWorker_run c w self :
  (Worker w, WORKER) ∈ DAG.nodes (_dag self) →
  (Comp c, JOB) ∈ DAG.nodes (_dag self) →
  setComponentWorker c w self = _addEdge (Worker w) (Comp c) WORKER JOB self.
Proof.
  intros Hw Hj. unfold setComponentWorker.
  rewrite (bind_Ok _ _ self _ self (eq_refl : dag_read _ self = _)).
  rewrite (bind_Ok _ _ self _ self (eq_refl : dag_read _ self = _)).
  by rewrite !(proj2 (hasNode_true _ _)).
Qed.

Lemma addNode_step o k self :
  base self → well_typed (o, k) → (o, k) ∉ DAG.nodes (_dag self) →
  ∃ self', _addNode o k self = (Ok tt, self') ∧ base self' ∧
    DAG.nodes (_dag self') = DAG.nodes (_dag self) ++ [(o, k)] ∧
    DAG.edges (_dag self') = DAG.edges (_dag self) ∧
    _state self' = <[(o, k) := false]> (_state self).
Proof.
  intros Hbase Hty Hfresh. pose proof (base_addNode o k Hty self Hbase) as Hb.
  rewrite addNode_run_fresh in * by done. by eexists.
Qed.

Lemma addEdge_step p c pk ck self :
  base self →
  (p, pk) ∈ DAG.nodes (_dag self) → (c, ck) ∈ DAG.nodes (_dag self) →
  ((p, pk), (c, ck)) ∉ DAG.edges (_dag self) →
  kind_to_nat pk < kind_to_nat ck →
  ∃ self', _addEdge p c pk ck self = (Ok tt, self') ∧ base self' ∧
    DAG.nodes (_dag self') = DAG.nodes (_dag self) ∧
    DAG.edges (_dag self') = DAG.edges (_dag self) ++ [((p, pk), (c, ck))] ∧
    _state self' = _state self.
Proof.
  intros Hbase Hp Hc Hfresh Hlt.
  pose proof (base_addEdge p c pk ck (Nat.lt_le_incl _ _ Hlt) self Hbase) as Hb.
  rewrite addEdge_run_forward in * by done. by eexists.
Qed.

(** On a well-formed graph without the component, [addComponent] runs to
    its end; besides the three vertices of the component it adds at most a
    worker vertex. *)
Lemma addComponent_fresh c self :
  inv self → (Comp c, JOB) ∉ DAG.nodes (_dag self) →
  ∃ self', addComponent c self = (Ok tt, self') ∧
    ∀ v : vertex, v.2 ≠ WORKER → v.2 ≠ CLOCKMASTER →
      v ∈ DAG.nodes (_dag self') ↔
      v ∈ DAG.nodes (_dag self) ++
          [(Comp c, JOB); (Comp c, COMPONENTSTART); (Comp c, COMPONENTSETUP)].
Proof.
  intros [Hbase Htr] Hj.
  assert (Hst : (Comp c, COMPONENTSTART) ∉ DAG.nodes (_dag self))
    by (by rewrite <-(proj2 (Htr c))).
  assert (Hsu : (Comp c, COMPONENTSETUP) ∉ DAG.nodes (_dag self))
    by (by rewrite <-(proj1 (Htr c))).
  (* no edge of [self] touches the three vertices *)
  assert (Hold : ∀ p q, (p, q) ∈ DAG.edges (_dag self) →
            ∀ k, k ≠ WORKER → k ≠ CLOCKMASTER →
                 p ≠ (Comp c, k) ∧ q ≠ (Comp c, k)).
  { intros p q Hpq k ??. apply (base_edges _ Hbase) in Hpq as [Hp Hq].
    split; intros ->; destruct k; done. }
  unfold addComponent.
  destruct (addNode_step (Comp c) JOB self) as (s1 & Hr1 & Hb1 & Hn1 & He1 & _);
    [done..|].
  rewrite (bind_Ok _ _ _ _ _ Hr1).
  destruct (addNode_step (Comp c) COMPONENTSTART s1)
    as (s2 & Hr2 & Hb2 & Hn2 & He2 & _); [done..| |].
  { rewrite Hn1. set_solver. }
  rewrite (bind_Ok _ _ _ _ _ Hr2).
  destruct (addNode_step (Comp c) COMPONENTSETUP s2)
    as (s3 & Hr3 & Hb3 & Hn3 & He3 & _); [done..| |].
  { rewrite Hn2, Hn1. set_solver. }
  rewrite (bind_Ok _ _ _ _ _ Hr3).
  (* JOB -> COMPONENTSETUP *)
  destruct (addEdge_step (Comp c) (Comp c) JOB COMPONENTSETUP s3)
    as (s4 & Hr4 & Hb4 & Hn4 & He4 & _); [done| | | |simpl; lia|].
  { rewrite Hn3, Hn2, Hn1. set_solver. }
  { rewrite Hn3. set_solver. }
  { rewrite He3, He2, He1. intros H. by destruct (Hold _ _ H JOB). }
  rewrite (bind_Ok _ _ _ _ _ Hr4).
  (* the worker *)
  assert (Hw : ∃ s6, (match truthy (workerRequested c) with
                      | Some workername =>
                          addWorker workername;;
                          setComponentWorker c workername
                      | None => ret tt
                      end) s4 = (Ok tt, s6) ∧ base s6 ∧
             (∀ v : vertex, v.2 ≠ WORKER →
                v ∈ DAG.nodes (_dag s6) ↔ v ∈ DAG.nodes (_dag s4)) ∧
             (∀ e : edge, e ∈ DAG.edges (_dag s6) →
                e ∈ DAG.edges (_dag s4) ∨ e.1.2 = WORKER)).
  { destruct (truthy (workerRequested c)) as [w|].
    2: { exists s4. split; [done|]. split; [done|]. split; [done|]. by left. }
    assert (Hs5 : ∃ s5, addWorker w s4 = (Ok tt, s5) ∧ base s5 ∧
              (Worker w, WORKER) ∈ DAG.nodes (_dag s5) ∧
              (∀ v : vertex, v.2 ≠ WORKER →
                 v ∈ DAG.nodes (_dag s5) ↔ v ∈ DAG.nodes (_dag s4)) ∧
              DAG.edges (_dag s5) = DAG.edges (_dag s4)).
    { rewrite addWorker_run. destruct (decide _) as [Hin|Hfresh].
      - by exists s4.
      - destruct (addNode_step (Worker w) WORKER s4)
          as (s5 & Hr5 & Hb5 & Hn5 & He5 & _); [done..|].
        exists s5. split; [done|]. split; [done|]. rewrite Hn5.
        split; [set_solver|]. split; [|done].
        intros [o k] Hk. simpl in *. set_solver. }
    destruct Hs5 as (s5 & Hr5 & Hb5 & Hw5 & Hn5 & He5).
    rewrite (bind_Ok _ _ _ _ _ Hr5).
    assert (Hj5 : (Comp c, JOB) ∈ DAG.nodes (_dag s5)).
    { apply Hn5; [done|]. rewrite Hn4, Hn3, Hn2, Hn1. set_solver. }
    rewrite setComponentWorker_run by done.
    destruct (addEdge_step (Worker w) (Comp c) WORKER JOB s5)
      as (s6 & Hr6 & Hb6 & Hn6 & He6 & _); [done..| |simpl; lia|].
    { rewrite He5, He4, He3, He2, He1.
      intros [H|H%list_elem_of_singleton]%elem_of_app; [|done].
      by destruct (Hold _ _ H JOB). }
    exists s6. split; [done|]. split; [done|]. rewrite Hn6, He6, He5.
    split; [done|]. intros e [?|He%list_elem_of_singleton]%elem_of_app;
      [by left|right]. by subst e. }
  destruct Hw as (s6 & Hr6 & Hb6 & Hn6 & He6).
  rewrite (bind_Ok _ _ _ _ _ Hr6).
  (* COMPONENTSETUP -> COMPONENTSTART *)
  destruct (addEdge_step (Comp c) (Comp c) COMPONENTSETUP COMPONENTSTART s6)
    as (s7 & Hr7 & Hb7 & Hn7 & He7 & _); [done| | | |simpl; lia|].
  { apply Hn6; [done|]. rewrite Hn4, Hn3. set_solver. }
  { apply Hn6; [done|]. rewrite Hn4, Hn3, Hn2. set_solver. }
  { intros [H|H]%He6; [|done]. rewrite He4, He3, He2, He1 in H.
    apply elem_of_app in H as [H|H%list_elem_of_singleton]; [|done].
    by destruct (Hold _ _ H COMPONENTSETUP). }
  exists s7. split; [done|]. intros v Hv1 Hv2.
  rewrite Hn7, Hn6, Hn4, Hn3, Hn2, Hn1 by done. set_solver.
Qed.

Lemma triple_add_component ns c :
  triple ns → (Comp c, JOB) ∉ ns →
  triple (ns ++ [(Comp c, JOB); (Comp c, COMPONENTSTART);
                 (Comp c, COMPONENTSETUP)]).
Proof.
  intros Htr Hj c'. destruct (Htr c') as [H1 H2].
  destruct (decide (c' = c)) as [->|Hne]; set_solver.
Qed.

Lemma removeComponent_run c self :
  base self →
  (removeComponent c self).1 = Ok tt ∧
  (∀ v, v ∈ DAG.nodes (_dag (removeComponent c self).2) ↔
        v ∈ DAG.nodes (_dag self) ∧ v.1 ≠ Comp c) ∧
  (∀ v, _state (removeComponent c self).2 !! v =
        if decide (v ∈ DAG.nodes (_dag self) ∧ v.1 = Comp c)
        then None else _state self !! v).
Proof.
  intros Hbase.
  destruct (removeComponent_loop c types self Hbase) as (Hok & Hn & Hs).
  assert (Hall : ∀ k, k ∈ types) by (intros []; set_solver).
  split; [done|]. split.
  - intros v. unfold removeComponent. rewrite Hn. split.
    + intros [? Hno]. split; [done|]. intros ?. by apply Hno.
    + intros [? Hno]. split; [done|]. by intros [? _].
  - intros v. unfold removeComponent. rewrite Hs.
    destruct (decide (v ∈ DAG.nodes (_dag self) ∧ v.1 = Comp c)) as [[??]|Hno].
    + by rewrite decide_True.
    + rewrite decide_False; [done|]. intros (? & ? & _). by apply Hno.
Qed.

Lemma inv_call o self : inv self → inv (call o self).2.
Proof.
  intros [Hbase Htr]. split; [by apply base_call|].
  destruct o as [c|c|w|c|w|c w| | |s];
    try (eapply triple_same_components; [|done];
         by apply (same_call (DAG.nodes (_dag self)))).
  - simpl.
    destruct (decide ((Comp c, JOB) ∈ DAG.nodes (_dag self))) as [Hin|Hfresh].
    + by rewrite addComponent_present.
    + destruct (addComponent_fresh c self) as (self' & -> & Hn); [done..|].
      eapply triple_same_components; [exact Hn|].
      by apply triple_add_component.
  - simpl. destruct (removeComponent_run c self Hbase) as (_ & Hn & _).
    intros c'. rewrite !Hn. simpl. destruct (Htr c') as [H1 H2].
    split; split; intros [? ?]; (split; [|done]); tauto.
Qed.

Lemma reachable_inv self : reachable self → inv self.
Proof.
  induction 1 as [|o self _ IH]; [|by apply inv_call].
  split; [apply base_empty|]. intros c. split; by split; intros ?%elem_of_nil.
Qed.

Lemma reachable_run ops self : reachable self → reachable (run ops self).
Proof.
  revert self. induction ops as [|o ops IH]; intros self Hr; [done|].
  simpl. apply IH. by constructor.
Qed.

(** ** What should be started *)

Lemma filter_ext_in {A} (P1 P2 : A → Prop)
    `{!∀ x, Decision (P1 x), !∀ x, Decision (P2 x)} (l : list A) :
  (∀ x, x ∈ l → P1 x ↔ P2 x) → filter P1 l = filter P2 l.
Proof.
  induction l as [|a l IH]; intros Hiff; [done|].
  rewrite !filter_cons, IH by (intros; apply Hiff; by right).
  apply decide_ext, Hiff. by left.
Qed.

Lemma filter_id {A} (P : A → Prop) `{!∀ x, Decision (P x)} (l : list A) :
  (∀ x, x ∈ l → P x) → filter P l = l.
Proof.
  induction l as [|a l IH]; intros Hall; [done|].
  rewrite filter_cons_True by (apply Hall; by left).
  by rewrite IH by (intros; apply Hall; by right).
Qed.

(** On a list without duplicates [list.remove] is a filter. *)
Lemma list_remove_NoDup x l :
  NoDup l → x ∈ l → list_remove x l = Ok (filter (λ y, y ≠ x) l).
Proof.
  induction l as [|y l IH]; intros Hnd Hx; [by apply elem_of_nil in Hx|].
  apply NoDup_cons in Hnd as [Hy Hnd]. simpl.
  destruct (decide (x = y)) as [->|Hne].
  - rewrite filter_cons_False by (by intros ?).
    rewrite filter_id; [done|]. intros z Hz ->. done.
  - apply elem_of_cons in Hx as [?|Hx]; [done|].
    rewrite IH by done. simpl. by rewrite filter_cons_True by done.
Qed.

Lemma remove_offspring_NoDup offspring l :
  NoDup l →
  remove_offspring offspring l = Ok (filter (λ v, v ∉ offspring) l).
Proof.
  unfold remove_offspring. revert l.
  induction offspring as [|o offs IH]; intros l Hnd; simpl.
  { rewrite filter_id; [done|]. intros ? _. apply not_elem_of_nil. }
  destruct (decide (o ∈ l)) as [Ho|Ho].
  - rewrite list_remove_NoDup by done. simpl.
    rewrite IH by by apply NoDup_filter. rewrite list_filter_filter.
    f_equal. apply list_filter_iff. intros v. rewrite elem_of_cons. tauto.
  - simpl. rewrite IH by done. f_equal. apply filter_ext_in.
    intros v Hv. rewrite elem_of_cons. split; [|tauto].
    intros ? [->|?]; done.
Qed.

Section whatShouldBeStarted.
Context (self : t) (Hbase : base self).
Context (sorted : list vertex) (Hnd : NoDup sorted).
Context (Hnodes : ∀ v, v ∈ sorted → v ∈ DAG.nodes (_dag self)).

Local Abbreviation offspring q := (DAG.getOffspringTyped (_dag self) q).

(** What the loop keeps of the list [l] once the vertices of [seen]
    are tested: [l] is [sorted] without some vertices; a vertex was
    dropped for being live or for hanging below a dropped vertex with
    all its offspring dropped; a tested vertex that is left is not
    live. *)
Local Abbreviation loop_inv l seen :=
  (l = filter (λ v, v ∈ l) sorted ∧
   (∀ v, v ∈ sorted → (v ∉ l) →
      _state self !! v = Some true ∨
      ∃ q, (q ∉ l) ∧ (∀ o, o ∈ offspring q → o ∉ l) ∧
           (v = q ∨ v ∈ offspring q)) ∧
   (∀ v, v ∈ seen → v ∈ l → _state self !! v = Some false)).

Lemma filter_sorted_NoDup l : l = filter (λ v, v ∈ l) sorted → NoDup l.
Proof using Hnd. intros ->. by apply NoDup_filter. Qed.

Lemma filter_sorted_drop (P : vertex → Prop) `{!∀ v, Decision (P v)} l :
  l = filter (λ v, v ∈ l) sorted →
  filter P l = filter (λ v, v ∈ filter P l) sorted.
Proof.
  intros Hl. rewrite Hl at 1. rewrite list_filter_filter.
  apply list_filter_iff. intros v. by rewrite list_elem_of_filter.
Qed.

(** Dropping a vertex with all its offspring. *)
Lemma test_obj_drop l seen obj :
  loop_inv l seen → obj ∈ l → _state self !! obj = Some false →
  loop_inv (filter (λ y, y ≠ obj) (filter (λ v, v ∉ offspring obj) l))
           (seen ++ [obj]).
Proof.
  intros (Hl & Hdrop & Hseen) Hobj Hlive. split; [|split].
  - by apply filter_sorted_drop, filter_sorted_drop.
  - intros v Hv Hnl.
    destruct (decide (v ∈ l)) as [Hvl|Hvl].
    + right. exists obj. split; [|split].
      * rewrite list_elem_of_filter. tauto.
      * intros o Ho. rewrite !list_elem_of_filter. tauto.
      * rewrite !list_elem_of_filter in Hnl.
        destruct (decide (v = obj)); [by left|right].
        destruct (decide (v ∈ offspring obj)); [done|tauto].
    + destruct (Hdrop v Hv Hvl) as [?|(q & Hq & Hoff & Hvq)]; [by left|].
      right. exists q. split; [|split; [|done]].
      * rewrite !list_elem_of_filter. tauto.
      * intros o Ho. rewrite !list_elem_of_filter. specialize (Hoff o Ho).
        tauto.
  - intros v Hv [Hne [_ Hvl]%list_elem_of_filter]%list_elem_of_filter.
    apply elem_of_app in Hv as [Hv|Hv%list_elem_of_singleton]; [auto|done].
Qed.

Lemma test_obj_spec l seen obj :
  loop_inv l seen → obj ∈ sorted →
  ∃ l', test_obj self l obj = Ok l' ∧ loop_inv l' (seen ++ [obj]).
Proof using Hbase Hnd Hnodes.
  intros Hinv Hobj. pose proof Hinv as (Hl & Hdrop & Hseen).
  pose proof (filter_sorted_NoDup l Hl) as Hndl.
  unfold test_obj. destruct (decide (obj ∈ l)) as [Hin|Hnin].
  2: { exists l. split; [done|]. split; [done|]. split; [done|].
       intros v [Hv|Hv%list_elem_of_singleton]%elem_of_app ?; [auto|].
       by subst v. }
  unfold state_get.
  destruct (base_live _ Hbase obj (Hnodes obj Hobj)) as [[] Hlive];
    rewrite Hlive; simpl.
  - (* live: dropped alone *)
    rewrite list_remove_NoDup by done.
    eexists. split; [done|]. split; [|split].
    + by apply filter_sorted_drop.
    + intros v Hv Hnl. destruct (decide (v ∈ l)) as [Hvl|Hvl].
      * left. rewrite list_elem_of_filter in Hnl.
        destruct (decide (v = obj)) as [->|]; [done|tauto].
      * destruct (Hdrop v Hv Hvl) as [?|(q & Hq & Hoff & Hvq)]; [by left|].
        right. exists q. split; [|split; [|done]].
        -- rewrite list_elem_of_filter. tauto.
        -- intros o Ho. rewrite list_elem_of_filter.
           specialize (Hoff o Ho). tauto.
    + intros v Hv [Hne Hvl]%list_elem_of_filter.
      apply elem_of_app in Hv as [Hv|Hv%list_elem_of_singleton];
        [auto|done].
  - (* not live *)
    assert (Hdropped :
      ∃ l', (tbs ← remove_offspring (offspring obj) l; list_remove obj tbs)
            = Ok l' ∧ loop_inv l' (seen ++ [obj])).
    { rewrite remove_offspring_NoDup by done. simpl.
      rewrite list_remove_NoDup.
      - eexists. split; [done|]. by apply test_obj_drop.
      - by apply NoDup_filter.
      - apply list_elem_of_filter. split; [|done].
        intros [_ ?]%elem_of_getOffspringTyped. done. }
    destruct (decide (obj.2 = WORKER)); [done|].
    destruct (decide (obj.2 = JOB)); [done|].
    exists l. split; [done|]. split; [done|]. split; [done|].
    intros v [Hv|Hv%list_elem_of_singleton]%elem_of_app ?; [auto|].
    by subst v.
Qed.

Lemma test_loop_spec todo l seen :
  loop_inv l seen → (∀ v, v ∈ todo → v ∈ sorted) →
  ∃ l', ofold (test_obj self) l todo = Ok l' ∧ loop_inv l' (seen ++ todo).
Proof using Hbase Hnd Hnodes.
  revert l seen. induction todo as [|obj todo IH]; intros l seen Hinv Htodo.
  { exists l. by rewrite app_nil_r. }
  simpl.
  destruct (test_obj_spec l seen obj Hinv) as (l1 & -> & Hinv1).
  { apply Htodo. by left. }
  simpl. destruct (IH l1 (seen ++ [obj]) Hinv1) as (l' & Hrun & Hinv').
  { intros v Hv. apply Htodo. by right. }
  exists l'. split; [done|]. by rewrite <-(assoc_L (++)) in Hinv'.
Qed.

End whatShouldBeStarted.

(** On a well-formed graph [whatShouldBeStarted] returns; what it returns
    is [sort()] without some vertices, and the loop invariant holds of it
    with every vertex tested. *)
Lemma whatShouldBeStarted_spec self :
  base self →
  ∃ l, whatShouldBeStarted self = Ok l ∧
    l = filter (λ v, v ∈ l) (DAG.sort (_dag self)) ∧
    (∀ v, v ∈ DAG.nodes (_dag self) → (v ∉ l) →
       _state self !! v = Some true ∨
       ∃ q, (q ∉ l) ∧
            (∀ o, o ∈ DAG.getOffspringTyped (_dag self) q → o ∉ l) ∧
            (v = q ∨ v ∈ DAG.getOffspringTyped (_dag self) q)) ∧
    (∀ v, v ∈ l → _state self !! v = Some false).
Proof.
  intros Hbase. pose proof (sort_perm _ (base_acyclic _ Hbase)) as Hperm.
  destruct (test_loop_spec self Hbase (DAG.sort (_dag self)))
    with (todo := DAG.sort (_dag self)) (l := DAG.sort (_dag self))
         (seen := @nil vertex) as (l & Hrun & Hl & Hdrop & Hseen).
  - rewrite Hperm. apply (base_nodup _ Hbase).
  - intros v. by rewrite Hperm.
  - split; [|split].
    + symmetry. by apply filter_id.
    + by intros v ? ?.
    + by intros v ?%elem_of_nil.
  - done.
  - exists l. split; [done|]. split; [done|]. split.
    + intros v Hv. apply Hdrop. by rewrite Hperm.
    + intros v Hv. apply Hseen; [|done]. simpl. rewrite Hl in Hv.
      by apply list_elem_of_filter in Hv as [_ ?].
Qed.

(** C4: in a reachable state [whatShouldBeStarted] returns a list, and no
    vertex of the list is live. *)
Theorem whatShouldBeStarted_not_live self :
  reachable self →
  ∃ l, whatShouldBeStarted self = Ok l ∧
       ∀ v, v ∈ l → _state self !! v = Some false.
Proof.
  intros Hbase%reachable_base.
  destruct (whatShouldBeStarted_spec self Hbase) as (l & Hrun & _ & _ & Hlive).
  by exists l.
Qed.

(** C3: in a reachable state [whatShouldBeStarted] returns a list in
    which every parent of a listed vertex is listed earlier or is live. *)
Theorem whatShouldBeStarted_prerequisites self :
  reachable self →
  ∃ l, whatShouldBeStarted self = Ok l ∧
       ∀ v p, v ∈ l → (p, v) ∈ DAG.edges (_dag self) →
              DAG.earlier l p v ∨ _state self !! p = Some true.
Proof.
  intros Hbase%reachable_base.
  destruct (whatShouldBeStarted_spec self Hbase)
    as (l & Hrun & Hl & Hdrop & Hlive).
  exists l. split; [done|]. intros v p Hv Hpv.
  destruct (base_edges _ Hbase p v Hpv) as [Hp Hvn].
  destruct (decide (p ∈ l)) as [Hpl|Hpl].
  - left.
    destruct (sort_topological (_dag self) p v) as (l1 & l2 & Hsort & Hp1);
      [apply (base_acyclic _ Hbase)|done..|].
    rewrite Hl, Hsort, filter_app, filter_cons_True by done.
    eapply earlier_split; [done|]. by apply list_elem_of_filter.
  - destruct (Hdrop p Hp Hpl) as [?|(q & Hq & Hoff & Hpq)]; [by right|].
    exfalso. apply (Hoff v); [|done].
    apply elem_of_getOffspringTyped.
    assert (Hqv : DAG.descendant (_dag self) q v).
    { destruct Hpq as [->|[Hqp _]%elem_of_getOffspringTyped].
      - by apply tc_once.
      - eapply tc_r; [done|]. done. }
    split; [done|]. intros ->. by apply (base_acyclic _ Hbase q).
Qed.

(** ** Removing a worker *)

Import Examples.

(** Decides a closed decidable proposition by evaluation. *)
Ltac by_compute :=
  match goal with
  | |- ?P => apply (bool_decide_unpack P); vm_compute; exact I
  end.

Lemma removeWorker_run (w : string) (self : t) :
  base self →
  let v : vertex := (Worker w, WORKER) in
  let r := removeWorker w self in
  r.1 = Ok tt ∧
  (v ∈ DAG.nodes (_dag self) →
     DAG.nodes (_dag r.2) = filter (λ u, u ≠ v) (DAG.nodes (_dag self)) ∧
     DAG.edges (_dag r.2)
     = filter (λ e : edge, e.1 ≠ v ∧ e.2 ≠ v) (DAG.edges (_dag self)) ∧
     _state r.2 = delete v (_state self) ∧
     (v ∉ DAG.nodes (_dag r.2)) ∧ _state r.2 !! v = None) ∧
  (v ∉ DAG.nodes (_dag self) → r.2 = self).
Proof.
  intros Hbase v r. subst r. unfold removeWorker.
  rewrite (bind_Ok _ _ self _ self (eq_refl : dag_read _ self = _)).
  destruct (DAG.hasNode (_dag self) (Worker w, WORKER)) eqn:Hhas.
  - apply hasNode_true in Hhas. rewrite removeNode_del_run by done. simpl.
    split; [done|]. split; [|done]. intros _.
    split; [done|]. split; [done|]. split; [done|]. split.
    + rewrite list_elem_of_filter. tauto.
    + apply lookup_delete_eq.
  - apply hasNode_false in Hhas. simpl. split; [done|]. split; done.
Qed.

(** C6, as the code has it: [removeWorker] never raises.  When the worker
    vertex is in the graph it goes, with its edges and its liveness entry,
    and nothing else changes; when it is not, nothing changes at all. *)
Theorem removeWorker_spec (w : string) (self : t) :
  reachable self →
  let v : vertex := (Worker w, WORKER) in
  let r := removeWorker w self in
  r.1 = Ok tt ∧
  (v ∈ DAG.nodes (_dag self) →
     DAG.nodes (_dag r.2) = filter (λ u, u ≠ v) (DAG.nodes (_dag self)) ∧
     DAG.edges (_dag r.2)
     = filter (λ e : edge, e.1 ≠ v ∧ e.2 ≠ v) (DAG.edges (_dag self)) ∧
     _state r.2 = delete v (_state self) ∧
     (v ∉ DAG.nodes (_dag r.2)) ∧ _state r.2 !! v = None) ∧
  (v ∉ DAG.nodes (_dag self) → r.2 = self).
Proof. intros Hbase%reachable_base. by apply removeWorker_run. Qed.

(** C6, the counterexample: for a worker that is not in the graph
    [removeWorker] returns and raises nothing. *)
Lemma removeWorker_absent_returns :
  ((Worker "w9", WORKER) ∉ DAG.nodes (_dag flow)) ∧
  removeWorker "w9" flow = (Ok tt, flow).
Proof. split; [by_compute|reflexivity]. Qed.

(** ** The keys of the liveness map *)

Lemma descendant_is_child d p v :
  DAG.descendant d p v → ∃ u, (u, v) ∈ DAG.edges d.
Proof.
  unfold DAG.descendant. revert v. apply tc_ind_r.
  - intros y Hpy. by exists p.
  - intros y z _ Hyz _. by exists y.
Qed.

Lemma keyed_addNode o k : preserves keyed (_addNode o k).
Proof.
  intros self Hk v.
  destruct (decide ((o, k) ∈ DAG.nodes (_dag self))) as [Hin|Hfresh].
  - rewrite addNode_run_present by done. apply Hk.
  - rewrite addNode_run_fresh by done. simpl.
    destruct (decide ((o, k) = v)) as [<-|Hne]; [set_solver|].
    rewrite lookup_insert_ne by done. intros ?%Hk. set_solver.
Qed.

Lemma keyed_addEdge p c pk ck : preserves keyed (_addEdge p c pk ck).
Proof.
  intros self Hk v. destruct (addEdge_nodes p c pk ck self) as [-> ->].
  apply Hk.
Qed.

Lemma keyed_removeNode_del v :
  preserves keyed (dag_call (λ d, DAG.removeNode d v);; state_del v).
Proof.
  intros self Hk u. munfold.
  destruct (DAG.removeNode _ _) as [d'|e] eqn:Hrm; simpl; [|apply Hk].
  apply removeNode_Ok in Hrm as [_ ->].
  destruct (_state self !! v) eqn:Hv; simpl.
  - destruct (decide (u = v)) as [->|Hne].
    + rewrite lookup_delete_eq. by intros [? ?].
    + rewrite lookup_delete_ne by done. intros ?%Hk.
      by apply list_elem_of_filter.
  - intros Hu. apply list_elem_of_filter. split; [|by apply Hk].
    intros ->. rewrite Hv in Hu. by destruct Hu.
Qed.

Lemma keyed_setState o k b self :
  base self → keyed self → (o, k) ∈ DAG.nodes (_dag self) →
  keyed (_setState o k b self).2.
Proof.
  intros Hbase Hk Hin v. destruct b.
  - rewrite setState_true. simpl.
    destruct (decide ((o, k) = v)) as [<-|Hne]; [done|].
    rewrite lookup_insert_ne by done. apply Hk.
  - destruct (setState_false o k self) as (_ & -> & ->).
    case_decide as Hv; [|apply Hk]. intros _.
    destruct Hv as [->|[[Hd _]%elem_of_getOffspringTyped _]]; [done|].
    apply descendant_is_child in Hd as [u Hu].
    by apply (base_edges _ Hbase) in Hu as [_ ?].
Qed.

Lemma keyed_call o self :
  base self → keyed self →
  match o with
  | Set_ s => setter_vertex s ∈ DAG.nodes (_dag self)
  | _ => True
  end →
  keyed (call o self).2.
Proof.
  intros Hbase Hk Hon.
  pose proof keyed_addEdge as Hedge.
  assert (Hnode : ∀ o k, True → preserves keyed (_addNode o k))
    by (intros; apply keyed_addNode).
  assert (Hdel : ∀ v, True → preserves keyed
            (dag_call (λ d, DAG.removeNode d v);; state_del v))
    by (intros; apply keyed_removeNode_del).
  destruct o as [c|c|w|c|w|c w| | |s]; simpl.
  - by apply (keeps_addClockMaster keyed (λ _, True)).
  - by apply (keeps_addComponent keyed (λ _, True)).
  - by apply (keeps_addWorker keyed (λ _, True)).
  - by apply (keeps_removeComponent keyed (λ _, True)).
  - by apply (keeps_removeWorker keyed (λ _, True)).
  - apply keeps_setComponentWorker; [|done]. intros; apply Hedge.
  - apply keeps_mapEatersToFeeders; [|done]. intros; apply Hedge.
  - done.
  - rewrite call_setter_setState. apply keyed_setState; [done..|].
    by destruct (setter_vertex s).
Qed.

Lemma keyed_run ops self :
  base self → keyed self → setters_on_vertices ops self →
  base (run ops self) ∧ keyed (run ops self).
Proof.
  revert self. induction ops as [|o ops IH]; intros self Hbase Hk Hon; [done|].
  destruct Hon as [Ho Hon]. simpl. apply IH; [|by apply keyed_call|done].
  by apply base_call.
Qed.

(** C5, as the code has it: after any sequence of calls in which the
    liveness setters are called for vertices of the graph only, the keys
    of the liveness map are exactly the vertices. *)
Theorem liveness_keys_are_vertices (ops : list op) :
  setters_on_vertices ops empty →
  dom (_state (run ops empty))
  = list_to_set (DAG.nodes (_dag (run ops empty))).
Proof.
  intros Hon. destruct (keyed_run ops empty) as [Hbase Hk];
    [apply base_empty| |done|].
  { intros v. simpl. rewrite lookup_empty. by intros [? ?]. }
  apply set_eq. intros v. rewrite elem_of_dom, elem_of_list_to_set.
  split; [apply Hk|apply (base_live _ Hbase)].
Qed.

(** C5, the counterexample: a setter called for a worker that was never
    added leaves a liveness entry without a vertex. *)
Lemma setter_adds_stray_key :
  dom (_state (run [Set_ (SetWorkerStarted "w9")] empty))
  ≠ list_to_set (DAG.nodes (_dag (run [Set_ (SetWorkerStarted "w9")] empty))).
Proof.
  intros Heq.
  assert (Hin : (Worker "w9", WORKER)
                ∈ dom (_state (run [Set_ (SetWorkerStarted "w9")] empty))).
  { apply elem_of_dom. simpl. rewrite lookup_insert_eq. by eexists. }
  rewrite Heq in Hin. by apply elem_of_list_to_set, elem_of_nil in Hin.
Qed.

(** ** Appointing a clock master *)

Lemma elem_of_getAllNodesByType d k o :
  o ∈ DAG.getAllNodesByType d k ↔ (o, k) ∈ DAG.nodes d.
Proof.
  unfold DAG.getAllNodesByType. rewrite list_elem_of_fmap. split.
  - intros ([o' k'] & -> & [Hk Hin]%list_elem_of_filter). simpl in *.
    by subst k'.
  - intros Hin. exists (o, k). split; [done|]. by apply list_elem_of_filter.
Qed.

Lemma NoDup_getAllNodesByType d k :
  NoDup (DAG.nodes d) → NoDup (DAG.getAllNodesByType d k).
Proof.
  intros Hnd. unfold DAG.getAllNodesByType.
  apply NoDup_fmap_2_strong; [|by apply NoDup_filter].
  intros [o1 k1] [o2 k2] [Hk1 _]%list_elem_of_filter
    [Hk2 _]%list_elem_of_filter Ho. simpl in *. by subst.
Qed.

(** The body of the loop of [addClockMaster] at a component. *)
Lemma clock_edge_run x y self :
  (p ← lift (get_parent (Comp y));
   if decide (p = parent x)
   then _addEdge (Comp x) (Comp y) CLOCKMASTER COMPONENTSTART
   else ret tt) self
  = if decide (parent y = parent x)
    then _addEdge (Comp x) (Comp y) CLOCKMASTER COMPONENTSTART self
    else (Ok tt, self).
Proof. munfold. simpl. by destruct (decide _). Qed.

(** The loop of [addClockMaster] over the start vertices still to do. *)
Lemma clock_edges_loop x l self :
  base self → (Comp x, CLOCKMASTER) ∈ DAG.nodes (_dag self) →
  NoDup l →
  (∀ y, y ∈ l → (y, COMPONENTSTART) ∈ DAG.nodes (_dag self)) →
  (∀ y, y ∈ l →
     ((Comp x, CLOCKMASTER), (y, COMPONENTSTART)) ∉ DAG.edges (_dag self)) →
  ∃ self',
    for_ l (λ start,
      p ← lift (get_parent start);
      if decide (p = parent x)
      then _addEdge (Comp x) start CLOCKMASTER COMPONENTSTART
      else ret tt) self = (Ok tt, self') ∧
    DAG.nodes (_dag self') = DAG.nodes (_dag self) ∧
    _state self' = _state self ∧
    ∀ e, e ∈ DAG.edges (_dag self') ↔
         e ∈ DAG.edges (_dag self) ∨
         ∃ y, e = ((Comp x, CLOCKMASTER), (Comp y, COMPONENTSTART)) ∧
              Comp y ∈ l ∧ parent y = parent x.
Proof.
  revert self. induction l as [|start l IH];
    intros self Hbase Hcm Hnd Hin Hfresh.
  { exists self. repeat split; try done; [by left|].
    intros [?|(y & _ & []%elem_of_nil & _)]. done. }
  apply NoDup_cons in Hnd as [Hstart Hnd]. simpl.
  assert (Hs : (start, COMPONENTSTART) ∈ DAG.nodes (_dag self))
    by (apply Hin; by left).
  destruct start as [w|y].
  { by apply (base_typed _ Hbase) in Hs. }
  pose proof (clock_edge_run x y self) as Hbody.
  destruct (decide (parent y = parent x)) as [Hp|Hp].
  - destruct (addEdge_step (Comp x) (Comp y) CLOCKMASTER COMPONENTSTART self)
      as (s1 & Hr1 & Hb1 & Hn1 & He1 & Hs1); [done..| |simpl; lia|].
    { apply Hfresh. by left. }
    rewrite Hr1 in Hbody. rewrite (bind_Ok _ _ _ _ _ Hbody).
    destruct (IH s1) as (self' & Hrun & Hn' & Hs' & He'); [done| |done| | |].
    { by rewrite Hn1. }
    { intros z Hz. rewrite Hn1. apply Hin. by right. }
    { intros z Hz. rewrite He1.
      intros [H|H%list_elem_of_singleton]%elem_of_app.
      - revert H. apply Hfresh. by right.
      - inversion H; subst. done. }
    exists self'. split; [done|]. rewrite Hn', Hn1, Hs', Hs1.
    split; [done|]. split; [done|]. intros e. rewrite He', He1.
    rewrite elem_of_app, list_elem_of_singleton. split.
    + intros [[?| ->]|(z & -> & Hz & ?)]; [by left|right..].
      * exists y. split; [done|]. split; [by left|done].
      * exists z. split; [done|]. split; [by right|done].
    + intros [?|(z & -> & [Hz|Hz]%elem_of_cons & ?)]; [by left; left|..].
      * inversion Hz; subst. left. by right.
      * right. by exists z.
  - rewrite (bind_Ok _ _ _ _ _ Hbody).
    destruct (IH self) as (self' & Hrun & Hn' & Hs' & He'); [done..| | |].
    { intros z Hz. apply Hin. by right. }
    { intros z Hz. apply Hfresh. by right. }
    exists self'. split; [done|]. split; [done|]. split; [done|].
    intros e. rewrite He'. split.
    + intros [?|(z & -> & Hz & ?)]; [by left|right].
      exists z. split; [done|]. split; [by right|done].
    + intros [?|(z & -> & [Hz|Hz]%elem_of_cons & ?)]; [by left|..].
      * inversion Hz; subst. done.
      * right. by exists z.
Qed.

Lemma addClockMaster_run (x : component) (self : t) :
  inv self →
  let job : vertex := (Comp x, JOB) in
  let cm : vertex := (Comp x, CLOCKMASTER) in
  let r := addClockMaster x self in
  ((job ∉ DAG.nodes (_dag self)) →
     r = (Raise (KeyError PreconditionFailed), self)) ∧
  (job ∈ DAG.nodes (_dag self) → cm ∈ DAG.nodes (_dag self) →
     r = (Raise (KeyError AlreadyExists), self)) ∧
  (job ∈ DAG.nodes (_dag self) → (cm ∉ DAG.nodes (_dag self)) →
     r.1 = Ok tt ∧
     DAG.nodes (_dag r.2) = DAG.nodes (_dag self) ++ [cm] ∧
     _state r.2 = <[cm := false]> (_state self) ∧
     ∀ e, e ∈ DAG.edges (_dag r.2) ↔
          e ∈ DAG.edges (_dag self) ∨
          e = ((Comp x, COMPONENTSETUP), cm) ∨
          ∃ y, e = (cm, (Comp y, COMPONENTSTART)) ∧
               (Comp y, COMPONENTSTART) ∈ DAG.nodes (_dag self) ∧
               parent y = parent x).
Proof.
  intros [Hbase Htr] job cm r. subst job cm r.
  unfold addClockMaster.
  rewrite (bind_Ok _ _ self _ self (eq_refl : dag_read _ self = _)).
  split; [|split].
  - intros Hj. by rewrite (proj2 (hasNode_false _ _) Hj).
  - intros Hj Hcm. rewrite (proj2 (hasNode_true _ _) Hj).
    by rewrite (bind_Raise _ _ _ _ _ (addNode_run_present _ _ _ Hcm)).
  - intros Hj Hcm. rewrite (proj2 (hasNode_true _ _) Hj).
    destruct (addNode_step (Comp x) CLOCKMASTER self)
      as (s1 & Hr1 & Hb1 & Hn1 & He1 & Hs1); [done..|].
    rewrite (bind_Ok _ _ _ _ _ Hr1).
    assert (Hold : ∀ p q, (p, q) ∈ DAG.edges (_dag self) →
                          p ≠ (Comp x, CLOCKMASTER) ∧
                          q ≠ (Comp x, CLOCKMASTER)).
    { intros p q [Hp Hq]%(base_edges _ Hbase). split; by intros ->. }
    destruct (addEdge_step (Comp x) (Comp x) COMPONENTSETUP CLOCKMASTER s1)
      as (s2 & Hr2 & Hb2 & Hn2 & He2 & Hs2); [done| | | |simpl; lia|].
    { rewrite Hn1. apply elem_of_app. left. by apply (Htr x). }
    { rewrite Hn1. set_solver. }
    { rewrite He1. intros H. by destruct (Hold _ _ H). }
    rewrite (bind_Ok _ _ _ _ _ Hr2).
    rewrite (bind_Ok _ _ s2 _ s2 (eq_refl : dag_read _ s2 = _)).
    destruct (clock_edges_loop x
                (DAG.getAllNodesByType (_dag s2) COMPONENTSTART) s2)
      as (s3 & Hr3 & Hn3 & Hs3 & He3); [done| | | | |].
    { rewrite Hn2, Hn1. set_solver. }
    { apply NoDup_getAllNodesByType, (base_nodup _ Hb2). }
    { intros y. by rewrite elem_of_getAllNodesByType. }
    { intros y _. rewrite He2, He1.
      intros [H|H%list_elem_of_singleton]%elem_of_app; [|done].
      by destruct (Hold _ _ H). }
    rewrite Hr3. simpl. split; [done|].
    rewrite Hn3, Hn2, Hn1, Hs3, Hs2, Hs1. split; [done|]. split; [done|].
    intros e. rewrite He3, He2, He1, elem_of_app, list_elem_of_singleton.
    assert (Hstart : ∀ y, Comp y ∈ DAG.getAllNodesByType (_dag s2)
                                     COMPONENTSTART ↔
                          (Comp y, COMPONENTSTART) ∈ DAG.nodes (_dag self)).
    { intros y. rewrite elem_of_getAllNodesByType, Hn2, Hn1.
      rewrite elem_of_app, list_elem_of_singleton. split; [|tauto].
      by intros [?|?]. }
    split.
    + intros [[?|?]|(y & ? & ?%Hstart & ?)]; [tauto..|].
      right; right. by exists y.
    + intros [?|[?|(y & ? & ?%Hstart & ?)]]; [tauto..|].
      right. by exists y.
Qed.

(** C8, as the code has it: in a reachable state [addClockMaster] raises
    and changes nothing when the component has no [JOB] vertex, and also
    when it has a [CLOCKMASTER] vertex already; otherwise it returns, having
    added the [CLOCKMASTER] vertex with liveness [False], the edge from the
    component's setup and an edge to every [COMPONENTSTART] vertex of the
    same parent flow, and no other edge. *)
Theorem addClockMaster_spec (x : component) (self : t) :
  reachable self →
  let job : vertex := (Comp x, JOB) in
  let cm : vertex := (Comp x, CLOCKMASTER) in
  let r := addClockMaster x self in
  ((job ∉ DAG.nodes (_dag self)) →
     r = (Raise (KeyError PreconditionFailed), self)) ∧
  (job ∈ DAG.nodes (_dag self) → cm ∈ DAG.nodes (_dag self) →
     r = (Raise (KeyError AlreadyExists), self)) ∧
  (job ∈ DAG.nodes (_dag self) → (cm ∉ DAG.nodes (_dag self)) →
     r.1 = Ok tt ∧
     DAG.nodes (_dag r.2) = DAG.nodes (_dag self) ++ [cm] ∧
     _state r.2 = <[cm := false]> (_state self) ∧
     ∀ e, e ∈ DAG.edges (_dag r.2) ↔
          e ∈ DAG.edges (_dag self) ∨
          e = ((Comp x, COMPONENTSETUP), cm) ∨
          ∃ y, e = (cm, (Comp y, COMPONENTSTART)) ∧
               (Comp y, COMPONENTSTART) ∈ DAG.nodes (_dag self) ∧
               parent y = parent x).
Proof. intros Hinv%reachable_inv. by apply addClockMaster_run. Qed.

(** C8, the counterexample: with its [JOB] vertex in the graph, a second
    [addClockMaster] for a running clock master raises; the
    [CLOCKMASTER] vertex is not created anew and keeps liveness [True]. *)
Lemma addClockMaster_twice_raises :
  (Comp src, JOB) ∈ DAG.nodes (_dag flow_clocked) ∧
  addClockMaster src flow_clocked
  = (Raise (KeyError AlreadyExists), flow_clocked) ∧
  _state (addClockMaster src flow_clocked).2 !! (Comp src, CLOCKMASTER)
  = Some true.
Proof. split; [by_compute|]. split; by vm_compute. Qed.

(** ** Mapping eaters to feeders *)

Lemma extends_refl self : extends self self.
Proof. split; [done|]. split; [done|]. exists []. by rewrite app_nil_r. Qed.

Lemma extends_trans s1 s2 s3 : extends s1 s2 → extends s2 s3 → extends s1 s3.
Proof.
  intros (Hn1 & Hs1 & m1 & He1) (Hn2 & Hs2 & m2 & He2).
  split; [congruence|]. split; [congruence|]. exists (m1 ++ m2).
  by rewrite He2, He1, (assoc_L (++)).
Qed.

Lemma addEdge_NotFound d p c :
  ¬ (p ∈ DAG.nodes d ∧ c ∈ DAG.nodes d) →
  DAG.addEdge d p c = Raise (KeyError NotFound).
Proof.
  intros Hno. unfold DAG.addEdge.
  destruct (DAG.hasNode d p) eqn:Hp, (DAG.hasNode d c) eqn:Hc; try done.
  apply hasNode_true in Hp, Hc. by destruct Hno.
Qed.

Lemma addEdge_AlreadyExists d p c :
  p ∈ DAG.nodes d → c ∈ DAG.nodes d → (p, c) ∈ DAG.edges d →
  DAG.addEdge d p c = Raise (KeyError AlreadyExists).
Proof.
  intros Hp%hasNode_true Hc%hasNode_true He. unfold DAG.addEdge.
  rewrite Hp, Hc. simpl. by rewrite bool_decide_eq_true_2.
Qed.

(** [addEdge] raises a [KeyError] for a missing end point or for an edge
    that is there, and for nothing else. *)
Lemma addEdge_KeyError d p c k :
  DAG.addEdge d p c = Raise (KeyError k) →
  ¬ (p ∈ DAG.nodes d ∧ c ∈ DAG.nodes d) ∨
  (p ∈ DAG.nodes d ∧ c ∈ DAG.nodes d ∧ (p, c) ∈ DAG.edges d).
Proof.
  unfold DAG.addEdge.
  destruct (DAG.hasNode d p) eqn:Hp, (DAG.hasNode d c) eqn:Hc; simpl;
    try (intros _; left; intros [?%hasNode_true ?%hasNode_true]; congruence).
  apply hasNode_true in Hp, Hc. case_bool_decide; [by right|].
  by destruct (DAG.wouldCycle d p c).
Qed.

Section replayable.

Lemma replayable_ret {A} (a : A) : replayable (ret a).
Proof. intros self a' self' [= <- <-]. split; [apply extends_refl|done]. Qed.

Lemma replayable_raise {A} e : replayable (raise (A := A) e).
Proof. by intros self a self'. Qed.

Lemma replayable_lift {A} (x : outcome A) : replayable (lift x).
Proof.
  intros self a self' [= -> <-]. split; [apply extends_refl|done].
Qed.

Lemma replayable_dag_read {A} (f : DAG.t → A) :
  (∀ d d', DAG.nodes d = DAG.nodes d' → f d = f d') →
  replayable (dag_read f).
Proof.
  intros Hf self a self' [= <- <-]. split; [apply extends_refl|].
  intros later [Hn _]. unfold dag_read. by rewrite (Hf _ _ Hn).
Qed.

Lemma replayable_bind {A B} (m : M A) (f : A → M B) :
  replayable m → (∀ a, replayable (f a)) → replayable (m ≫= f).
Proof.
  intros Hm Hf self b self' Hrun. munfold.
  destruct (m self) as [[a|e] s1] eqn:Hm1; [|done].
  destruct (Hm _ _ _ Hm1) as [Hext1 Hre1].
  destruct (Hf a _ _ _ Hrun) as [Hext2 Hre2].
  split; [by eapply extends_trans|]. intros later Hlater.
  rewrite Hre1 by by eapply extends_trans. by apply Hre2.
Qed.

Lemma replayable_for {A} (l : list A) (body : A → M unit) :
  (∀ x, replayable (body x)) → replayable (for_ l body).
Proof.
  intros Hbody. induction l as [|x l IH]; simpl; [apply replayable_ret|].
  apply replayable_bind; [done|]. by intros _.
Qed.

Lemma replayable_foldM {A S} (body : S → A → M S) (s : S) (l : list A) :
  (∀ s x, replayable (body s x)) → replayable (foldM body s l).
Proof.
  intros Hbody. revert s. induction l as [|x l IH]; intros s; simpl;
    [apply replayable_ret|].
  apply replayable_bind; [done|]. intros s'. apply IH.
Qed.

(** An edge that was added, was there or lacked an end point is
    swallowed the next time. *)
Lemma replayable_try_addEdge p c pk ck :
  replayable (except_KeyError (_addEdge p c pk ck)).
Proof.
  intros self a self'. unfold except_KeyError, _addEdge, dag_call.
  destruct (DAG.addEdge (_dag self) (p, pk) (c, ck)) as [d'|[k| | |]] eqn:Hadd;
    intros [= <- <-].
  - apply addEdge_Ok in Hadd as [(Hp & Hc & _) ->]. split.
    { split; [done|]. split; [done|]. by eexists. }
    intros later (Hn & Hs & more & He). simpl in *.
    rewrite addEdge_AlreadyExists; [done|by rewrite Hn..|].
    rewrite He. set_solver.
  - split; [apply extends_refl|]. intros later (Hn & Hs & more & He).
    apply addEdge_KeyError in Hadd as [Hno|(Hp & Hc & Hpc)].
    + rewrite addEdge_NotFound; [done|]. by rewrite Hn.
    + rewrite addEdge_AlreadyExists; [done|by rewrite Hn..|].
      rewrite He. set_solver.
Qed.

Lemma replayable_mapEatersToFeeders : replayable mapEatersToFeeders.
Proof.
  unfold mapEatersToFeeders. apply replayable_bind.
  { apply replayable_dag_read. intros d d' Hn.
    unfold DAG.getAllNodesByType. by rewrite Hn. }
  intros compsetups. apply replayable_for. intros eatercomp.
  apply replayable_bind; [apply replayable_lift|]. intros [src|];
    [|apply replayable_ret].
  apply replayable_for. intros eater. unfold map_eater.
  apply replayable_bind.
  - apply replayable_foldM. intros found feedercomp. unfold match_feeder.
    apply replayable_bind; [apply replayable_lift|]. intros n.
    destruct (decide _); [|apply replayable_ret].
    apply replayable_bind; [apply replayable_try_addEdge|]. intros _.
    apply replayable_bind; [apply replayable_try_addEdge|]. intros _.
    apply replayable_ret.
  - intros []; [apply replayable_ret|apply replayable_raise].
Qed.

End replayable.

(** C7: when [mapEatersToFeeders] returns, calling it again at once
    returns too and leaves the vertices, the edges and the liveness map as
    the first call left them. *)
Theorem mapEatersToFeeders_idempotent (self : t) :
  (mapEatersToFeeders self).1 = Ok tt →
  mapEatersToFeeders (mapEatersToFeeders self).2
  = (Ok tt, (mapEatersToFeeders self).2).
Proof.
  destruct (mapEatersToFeeders self) as [r self'] eqn:Hrun. simpl.
  intros ->. destruct (replayable_mapEatersToFeeders _ _ _ Hrun) as [_ Hre].
  apply Hre, extends_refl.
Qed.

(** *** One source entry *)

Lemma extends_addEdge s0 p c pk ck :
  preserves (extends s0) (_addEdge p c pk ck).
Proof.
  intros self Hext. eapply extends_trans; [done|].
  unfold _addEdge, dag_call.
  destruct (DAG.addEdge _ _ _) as [d'|e] eqn:Hadd; [|apply extends_refl].
  apply addEdge_Ok in Hadd as [_ ->].
  split; [done|]. split; [done|]. by eexists.
Qed.











(** ** Failing calls *)

(** C1, as the code has it: in a reachable state every call but
    [mapEatersToFeeders] either returns or raises having changed nothing;
    [mapEatersToFeeders] changes neither the vertices nor the liveness
    map, and the edges it added before raising stay. *)
Theorem calls_transactional (o : op) (self : t) :
  reachable self →
  (o ≠ MapEatersToFeeders →
     (call o self).1 = Ok tt ∨ (call o self).2 = self) ∧
  (o = MapEatersToFeeders → extends self (call o self).2).
Proof.
  intros Hreach. pose proof (reachable_inv _ Hreach) as [Hbase Htr].
  split.
  - intros Hne. destruct o as [c|c|w|c|w|c w| | |s]; simpl.
    + destruct (addClockMaster_run c self (conj Hbase Htr))
        as (Hno & Hdup & Hnew).
      destruct (decide ((Comp c, JOB) ∈ DAG.nodes (_dag self))) as [Hj|Hj];
        [|right; by rewrite Hno].
      destruct (decide ((Comp c, CLOCKMASTER) ∈ DAG.nodes (_dag self)))
        as [Hcm|Hcm]; [right; by rewrite Hdup|].
      left. by apply Hnew.
    + destruct (decide ((Comp c, JOB) ∈ DAG.nodes (_dag self))) as [Hj|Hj].
      * right. by rewrite addComponent_present.
      * left. by destruct (addComponent_fresh c self) as (s' & -> & _).
    + left. rewrite addWorker_run. destruct (decide _); [done|].
      by rewrite addNode_run_fresh.
    + left. by apply removeComponent_run.
    + left. by apply removeWorker_run.
    + unfold setComponentWorker, _addEdge. munfold. simpl.
      destruct (_ && _); [|by right].
      destruct (DAG.addEdge _ _ _); [by left|by right].
    + by destruct Hne.
    + by right.
    + left. rewrite call_setter_setState. destruct (setter_value s).
      * by rewrite setState_true.
      * by apply setState_false.
  - intros ->. simpl.
    apply (keeps_mapEatersToFeeders (extends self));
      [|apply extends_refl].
    intros; apply extends_addEdge.
Qed.

(** C1, the counterexample: [mapEatersToFeeders] raises at the second
    source of the eater, and the edges of its first source are in the
    graph. *)
Lemma mapEatersToFeeders_partial :
  (mapEatersToFeeders flow_ghost).1 = Raise (KeyError (Unresolved "ghost")) ∧
  DAG.edges (_dag (mapEatersToFeeders flow_ghost).2)
  ≠ DAG.edges (_dag flow_ghost).
Proof. split; [by vm_compute|]. by_compute. Qed.

(** ** The theorems at the sample flows *)

Lemma reachable_flow : reachable flow.
Proof. unfold flow. apply reachable_run, reachable_init. Defined.

Lemma reachable_flow_up : reachable flow_up.
Proof. unfold flow_up. do 2 apply reachable_run. exact reachable_flow. Defined.

Lemma reachable_flow_jobs_up : reachable flow_jobs_up.
Proof.
  unfold flow_jobs_up. do 2 apply reachable_run. exact reachable_flow.
Defined.

Lemma reachable_flow_src_up : reachable flow_src_up.
Proof.
  unfold flow_src_up. apply reachable_run. exact reachable_flow_jobs_up.
Defined.

(** Adding [src] to [flow] again raises and changes nothing. *)
Lemma calls_transactional_witness :
  reachable flow ∧
  (AddComponent src ≠ MapEatersToFeeders →
     (call (AddComponent src) flow).1 = Ok tt ∨
     (call (AddComponent src) flow).2 = flow) ∧
  (AddComponent src = MapEatersToFeeders →
     extends flow (call (AddComponent src) flow).2).
Proof.
  split; [exact reachable_flow|].
  exact (calls_transactional (AddComponent src) flow reachable_flow).
Defined.

(** Stopping the job of [src] in the running flow. *)
Lemma setter_false_cascade_witness :
  setter_value (SetJobStopped src) = false ∧
  let v0 := setter_vertex (SetJobStopped src) in
  let r := call_setter (SetJobStopped src) flow_up in
  r.1 = Ok tt ∧ _dag r.2 = _dag flow_up ∧
  _state r.2 !! v0 = Some false ∧
  ∀ v, v ≠ v0 →
    (DAG.descendant (_dag flow_up) v0 v ∧ v.1 = v0.1 →
       _state r.2 !! v = Some false) ∧
    (¬ (DAG.descendant (_dag flow_up) v0 v ∧ v.1 = v0.1) →
       _state r.2 !! v = _state flow_up !! v).
Proof.
  split; [reflexivity|].
  exact (setter_false_cascade (SetJobStopped src) flow_up eq_refl).
Defined.

(** With the worker and the jobs up, the setups and the starts of [src]
    and [snk] are to be started, feeder first. *)
Lemma whatShouldBeStarted_flow_jobs_up :
  whatShouldBeStarted flow_jobs_up
  = Ok [(Comp src, COMPONENTSETUP); (Comp src, COMPONENTSTART);
        (Comp snk, COMPONENTSETUP); (Comp snk, COMPONENTSTART)].
Proof. by vm_compute. Qed.

(** With [src] up as well, the setup and the start of [snk] are left. *)
Lemma whatShouldBeStarted_flow_src_up :
  whatShouldBeStarted flow_src_up
  = Ok [(Comp snk, COMPONENTSETUP); (Comp snk, COMPONENTSTART)].
Proof. by vm_compute. Qed.

(** In [flow_jobs_up] four vertices are listed: the setup of [snk] has
    its job for a parent, which is live, and the setup of [src], which is
    listed before it. *)
Lemma whatShouldBeStarted_prerequisites_witness :
  reachable flow_jobs_up ∧
  ∃ l, whatShouldBeStarted flow_jobs_up = Ok l ∧
       ∀ v p, v ∈ l → (p, v) ∈ DAG.edges (_dag flow_jobs_up) →
              DAG.earlier l p v ∨ _state flow_jobs_up !! p = Some true.
Proof.
  split; [exact reachable_flow_jobs_up|].
  exact (whatShouldBeStarted_prerequisites flow_jobs_up
           reachable_flow_jobs_up).
Defined.

(** In [flow_src_up] the worker, the jobs and the setup and start of
    [src] are live; the two vertices listed are not. *)
Lemma whatShouldBeStarted_not_live_witness :
  reachable flow_src_up ∧
  ∃ l, whatShouldBeStarted flow_src_up = Ok l ∧
       ∀ v, v ∈ l → _state flow_src_up !! v = Some false.
Proof.
  split; [exact reachable_flow_src_up|].
  exact (whatShouldBeStarted_not_live flow_src_up reachable_flow_src_up).
Defined.

Lemma liveness_keys_are_vertices_witness :
  let ops := [AddWorker "w1"; AddComponent src; Set_ (SetWorkerStarted "w1");
              Set_ (SetJobStarted src); RemoveComponent src] in
  setters_on_vertices ops empty ∧
  dom (_state (run ops empty))
  = list_to_set (DAG.nodes (_dag (run ops empty))).
Proof.
  intros ops.
  assert (H : setters_on_vertices ops empty).
  { subst ops. cbn [setters_on_vertices]. repeat split; by_compute. }
  split; [exact H|]. exact (liveness_keys_are_vertices ops H).
Defined.

Lemma removeWorker_spec_witness :
  reachable flow ∧
  let v : vertex := (Worker "w1", WORKER) in
  let r := removeWorker "w1" flow in
  r.1 = Ok tt ∧
  (v ∈ DAG.nodes (_dag flow) →
     DAG.nodes (_dag r.2) = filter (λ u, u ≠ v) (DAG.nodes (_dag flow)) ∧
     DAG.edges (_dag r.2)
     = filter (λ e : edge, e.1 ≠ v ∧ e.2 ≠ v) (DAG.edges (_dag flow)) ∧
     _state r.2 = delete v (_state flow) ∧
     (v ∉ DAG.nodes (_dag r.2)) ∧ _state r.2 !! v = None) ∧
  (v ∉ DAG.nodes (_dag flow) → r.2 = flow).
Proof.
  split; [exact reachable_flow|].
  exact (removeWorker_spec "w1" flow reachable_flow).
Defined.

Lemma mapEatersToFeeders_idempotent_witness :
  (mapEatersToFeeders flow).1 = Ok tt ∧
  mapEatersToFeeders (mapEatersToFeeders flow).2
  = (Ok tt, (mapEatersToFeeders flow).2).
Proof.
  assert (H : (mapEatersToFeeders flow).1 = Ok tt) by (vm_compute; reflexivity).
  split; [exact H|]. exact (mapEatersToFeeders_idempotent flow H).
Defined.

Lemma addClockMaster_spec_witness :
  reachable flow ∧
  let job : vertex := (Comp src, JOB) in
  let cm : vertex := (Comp src, CLOCKMASTER) in
  let r := addClockMaster src flow in
  ((job ∉ DAG.nodes (_dag flow)) →
     r = (Raise (KeyError PreconditionFailed), flow)) ∧
  (job ∈ DAG.nodes (_dag flow) → cm ∈ DAG.nodes (_dag flow) →
     r = (Raise (KeyError AlreadyExists), flow)) ∧
  (job ∈ DAG.nodes (_dag flow) → (cm ∉ DAG.nodes (_dag flow)) →
     r.1 = Ok tt ∧
     DAG.nodes (_dag r.2) = DAG.nodes (_dag flow) ++ [cm] ∧
     _state r.2 = <[cm := false]> (_state flow) ∧
     ∀ e, e ∈ DAG.edges (_dag r.2) ↔
          e ∈ DAG.edges (_dag flow) ∨
          e = ((Comp src, COMPONENTSETUP), cm) ∨
          ∃ y, e = (cm, (Comp y, COMPONENTSTART)) ∧
               (Comp y, COMPONENTSTART) ∈ DAG.nodes (_dag flow) ∧
               parent y = parent src).
Proof.
  split; [exact reachable_flow|].
  exact (addClockMaster_spec src flow reachable_flow).
Defined.

Lemma setter_true_frame_witness :
  setter_value (SetWorkerStarted "w1") = true ∧
  let r := call_setter (SetWorkerStarted "w1") flow in
  r.1 = Ok tt ∧
  DAG.nodes (_dag r.2) = DAG.nodes (_dag flow) ∧
  DAG.edges (_dag r.2) = DAG.edges (_dag flow) ∧
  _state r.2 !! setter_vertex (SetWorkerStarted "w1") = Some true ∧
  ∀ v, v ≠ setter_vertex (SetWorkerStarted "w1") →
       _state r.2 !! v = _state flow !! v.
Proof.
  split; [reflexivity|].
  exact (setter_true_frame (SetWorkerStarted "w1") flow eq_refl).
Defined.

